(** * A command-line shell over a POSIX file tree

    Shallow embedding of [src/shell.py] (class [Shell]: the dispatcher
    [execute_command] and the handlers [ls], [cd], [cat], [cp], [mv], [rm])
    together with the part of the Python runtime the handlers call:
    [pathlib] path arithmetic, symbolic-link resolution, [os]/[shutil] file
    operations, [print], [input] and the [logging] sink; and of the loop
    of [src/main.py] around the dispatcher.

    A string is a sequence of bytes: a text (a line, a token, a name, a
    message) is the UTF-8 encoding of the [str] it stands for, the content
    of a file is what is stored.  The configuration of the log and the
    handling of an interrupt from the keyboard are outside.

    Where the embedding does not follow the system, the theorems say so
    in a hypothesis: a NUL in an argument ([nul_free]), a name or a path
    past the limits of the file system ([within_limits]), white space
    beyond ASCII ([ascii_text]), a time stamp [datetime] does not take
    ([times_ok]).  Access rights are not checked, and the times of a
    directory do not change with its entries. *)

From stdpp Require Import base option list strings sorting pretty.
From Stdlib Require Import String Ascii ZArith NArith Lia.

Set Warnings "-register-all".

Open Scope string_scope.
Open Scope list_scope.

(** ** Strings *)

(** [s.split(sep)] for a one-character separator: never the empty list. *)
Fixpoint split_on (sep : ascii) (s : string) : list string :=
  match s with
  | EmptyString => [EmptyString]
  | String c s' =>
      if Ascii.eqb c sep then EmptyString :: split_on sep s'
      else match split_on sep s' with
           | [] => [String c EmptyString]
           | w :: ws => String c w :: ws
           end
  end.

(** [sep.join(parts)]. *)
Fixpoint join (sep : string) (parts : list string) : string :=
  match parts with
  | [] => EmptyString
  | [w] => w
  | w :: ws => w +:+ sep +:+ join sep ws
  end.

(** [str.lower] on the ASCII letters; the other bytes are left alone,
    letters or not.  The shell compares the result with ["exit"] and
    ["y"] only, of whose letters no character beyond ASCII is a capital. *)
Definition lower_ascii (c : ascii) : ascii :=
  let n := N_of_ascii c in
  if ((65 <=? n) && (n <=? 90))%N then ascii_of_N (n + 32) else c.

Fixpoint lower (s : string) : string :=
  match s with
  | EmptyString => EmptyString
  | String c s' => String (lower_ascii c) (lower s')
  end.

(** White space as [str.isspace] sees it among the ASCII characters: tab,
    line feed, vertical tab, form feed, carriage return, the four
    separators [\x1c] to [\x1f], and the space.  The white space of
    Unicode beyond these (U+0085, U+00A0, U+1680, U+2000 to U+200A,
    U+2028, U+2029, U+202F, U+205F, U+3000) is not followed: [strip] and
    [split] below are the ones of Python on a text that has none of it. *)
Definition is_space (c : ascii) : bool :=
  let n := N_of_ascii c in
  (((9 <=? n) && (n <=? 13)) || ((28 <=? n) && (n <=? 32)))%N.

(** [s.lstrip()], [s.rstrip()] and [s.strip()]. *)
Fixpoint lstrip (s : string) : string :=
  match s with
  | EmptyString => EmptyString
  | String c s' => if is_space c then lstrip s' else s
  end.

Fixpoint rstrip (s : string) : string :=
  match s with
  | EmptyString => EmptyString
  | String c s' =>
      match rstrip s' with
      | EmptyString => if is_space c then EmptyString else String c EmptyString
      | r => String c r
      end
  end.

Definition strip (s : string) : string := rstrip (lstrip s).

(** [s.split()]: the maximal runs of characters that are not white space,
    in order. *)
Fixpoint split_ws (s : string) : list string :=
  match s with
  | EmptyString => []
  | String c s' =>
      if is_space c then split_ws s'
      else
        match s' with
        | EmptyString => [String c EmptyString]
        | String c' _ =>
            if is_space c' then String c EmptyString :: split_ws s'
            else match split_ws s' with
                 | w :: ws => String c w :: ws
                 | [] => [String c EmptyString]
                 end
        end
  end.

(** [f"'{s}'"]: the text between apostrophes, as it is. *)
Definition quoted (s : string) : string := "'" +:+ s +:+ "'".

Fixpoint has_char (c : ascii) (s : string) : bool :=
  match s with
  | EmptyString => false
  | String c' s' => Ascii.eqb c c' || has_char c s'
  end.

Definition hex_digit (n : N) : string :=
  String.substring (N.to_nat n) 1 "0123456789abcdef".

(** [repr(s)] of a [str], character by character: the quote in use and
    the backslash get a backslash, tab, line feed and carriage return are
    written [\t], [\n], [\r], the other ASCII control characters
    [\xNN].  What lies beyond ASCII is taken to be printable and stays. *)
Definition repr_char (quote c : ascii) : string :=
  let n := N_of_ascii c in
  if Ascii.eqb c quote || Ascii.eqb c "\" then String "\" (String c EmptyString)
  else if (n =? 9)%N then "\t"
  else if (n =? 10)%N then "\n"
  else if (n =? 13)%N then "\r"
  else if ((n <? 32) || (n =? 127))%N
  then "\x" +:+ hex_digit (n / 16) +:+ hex_digit (n mod 16)
  else String c EmptyString.

Fixpoint repr_body (quote : ascii) (s : string) : string :=
  match s with
  | EmptyString => EmptyString
  | String c s' => repr_char quote c +:+ repr_body quote s'
  end.

(** [repr(s)]: between apostrophes, or between double quotes when the
    text holds an apostrophe and no double quote. *)
Definition repr (s : string) : string :=
  let quote :=
    if has_char "'" s && negb (has_char "034" s) then "034"%char
    else "'"%char in
  String quote (repr_body quote s +:+ String quote EmptyString).

(** What reading in text mode makes of the line ends ([newline=None]): a
    carriage return, with the line feed that follows it if any, becomes a
    line feed. *)
Fixpoint universal_newlines (s : string) : string :=
  match s with
  | EmptyString => EmptyString
  | String c s' =>
      if Ascii.eqb c "013" then
        String "010"
          match s' with
          | String c' s'' =>
              if Ascii.eqb c' "010" then universal_newlines s''
              else universal_newlines s'
          | EmptyString => EmptyString
          end
      else String c (universal_newlines s')
  end.

(** [f"{n:>8}"]: decimal, right-aligned in a field of at least 8. *)
Definition pad_left (width : nat) (s : string) : string :=
  String.concat EmptyString (replicate (width - String.length s) " ") +:+ s.

(** ** Paths ([pathlib.PurePosixPath])

    The shell only ever holds absolute paths ([self.pwd] and whatever is
    joined to it), so an absolute path is the list of its components below
    the root, and the root is the empty list. *)

Module PurePath.

Definition path := list string.

(** What [Path(s)] keeps of a string: whether it is anchored at the root,
    and its components (empty ones and ["."] are dropped, [".."] stays). *)
Record parsed := Parsed { anchored : bool; parts : list string }.

Definition kept (c : string) : bool :=
  negb (String.eqb c EmptyString) && negb (String.eqb c ".").

Definition parse (s : string) : parsed :=
  {| anchored := String.prefix "/" s;
     parts := List.filter kept (split_on "/" s) |}.

(** [base / Path(s)]: an anchored right operand replaces the left one. *)
Definition joinpath (base : path) (s : string) : path :=
  let p := parse s in
  if anchored p then parts p else base ++ parts p.

(** [p.parent]: lexical; the root is its own parent. *)
Definition parent (p : path) : path := removelast p.

(** [p.name]: the last component, the empty string for the root. *)
Definition name (p : path) : string := List.last p EmptyString.

(** [str(p)]. *)
Definition str (p : path) : string := "/" +:+ join "/" p.

End PurePath.

Export PurePath.

(** ** The file tree *)

Module Vfs.

(** What [os.stat] reports besides type and size. *)
Record inode := Inode { i_perm : N; i_uid : N; i_gid : N; i_mtime : Z }.

(** A directory keeps its entries in on-disk order, which is the order
    [os.listdir] returns them in; [Dir]'s number is its [st_size]. *)
Inductive node :=
| File (i : inode) (data : string)
| Dir (i : inode) (size : N) (entries : list (string * node))
| Symlink (target : string).

Inductive errno := ENOENT | ENOTDIR | EISDIR | ELOOP | EBUSY | EEXIST.

Fixpoint child (n : string) (es : list (string * node)) : option node :=
  match es with
  | [] => None
  | (m, c) :: es' => if String.eqb m n then Some c else child n es'
  end.

(** Descent along a path without following any link ([os.lstat] on a path
    none of whose proper prefixes is a link). *)
Fixpoint walk (t : node) (p : path) : errno + node :=
  match p with
  | [] => inr t
  | n :: p' =>
      match t with
      | Dir _ _ es =>
          match child n es with
          | Some c => walk c p'
          | None => inl ENOENT
          end
      | _ => inl ENOTDIR
      end
  end.

Fixpoint count_links (t : node) : nat :=
  match t with
  | File _ _ => 0
  | Symlink _ => 1
  | Dir _ _ es =>
      (fix go (es : list (string * node)) : nat :=
         match es with
         | [] => 0
         | (_, c) :: es' => count_links c + go es'
         end) es
  end.

(** [posixpath._joinrealpath(path, rest, strict=False, seen)].

    [cur] is resolved already, [rest] is still to be walked.  The links
    whose resolution is under way ([seen[newpath] is None] in the
    library) are [busy]; meeting one of them again is a loop, and the
    result is then the link joined with what was left, flagged [false].
    [depth] bounds the nesting of link resolutions; with one unit per link
    of the tree it is never used up before a loop is met. *)
Fixpoint joinrealpath (depth : nat) (root : node) (busy : list path)
    (cur rest : path) {struct depth} : path * bool :=
  (fix loop (cur rest : path) {struct rest} : path * bool :=
     match rest with
     | [] => (cur, true)
     | name :: rest' =>
         if String.eqb name EmptyString || String.eqb name "." then loop cur rest'
         else if String.eqb name ".." then loop (removelast cur) rest'
         else
           let newpath := cur ++ [name] in
           match walk root newpath with
           | inr (Symlink target) =>
               if bool_decide (newpath ∈ busy) then (newpath ++ rest', false)
               else
                 match depth with
                 | 0 => (newpath ++ rest', false)
                 | S depth' =>
                     let tgt := parse target in
                     let start := if anchored tgt then [] else cur in
                     match joinrealpath depth' root (newpath :: busy)
                             start (parts tgt) with
                     | (cur', true) => loop cur' rest'
                     | (cur', false) => (cur' ++ rest', false)
                     end
                 end
           | _ => loop newpath rest'
           end
     end) cur rest.

(** [os.path.realpath(p)] for an absolute [p]. *)
Definition realpath (root : node) (p : path) : path * bool :=
  joinrealpath (count_links root) root [] [] p.

(** [os.path.normpath] of an absolute path: [..] takes back the
    component before it, and nothing at the root. *)
Definition normpath (p : path) : path :=
  fold_left
    (fun acc c =>
       if String.eqb c EmptyString || String.eqb c "." then acc
       else if String.eqb c ".." then removelast acc
       else acc ++ [c])
    p [].

(** The links one name resolution follows at most. *)
Definition MAXSYMLINKS : nat := 40.

(** Name resolution as the kernel does it ([path_resolution(7)]), from
    the directory at [cur], itself free of links, along [rest]: where
    this leads, and the number of links followed.  Every component is
    looked up in a directory that is there; [..] is the parent of where
    one stands; a link is followed, the last component too, relative to
    the directory that holds it, and the [count] of links followed in one
    resolution is bounded by [MAXSYMLINKS].  [depth] bounds the nesting
    of links, which [count] bounds as well. *)
Fixpoint namei (depth : nat) (root : node) (count : nat) (cur rest : path)
    {struct depth} : errno + (path * nat) :=
  (fix loop (count : nat) (cur rest : path) {struct rest}
     : errno + (path * nat) :=
     match rest with
     | [] => inr (cur, count)
     | name :: rest' =>
         match walk root cur with
         | inr (Dir _ _ es) =>
             if String.eqb name EmptyString || String.eqb name "."
             then loop count cur rest'
             else if String.eqb name ".." then loop count (removelast cur) rest'
             else
               match child name es with
               | None => inl ENOENT
               | Some (Symlink target) =>
                   if (MAXSYMLINKS <=? count)%nat then inl ELOOP
                   else if String.eqb target EmptyString then inl ENOENT
                   else
                     match depth with
                     | 0 => inl ELOOP
                     | S depth' =>
                         let start :=
                           if String.prefix "/" target then [] else cur in
                         match namei depth' root (S count) start
                                 (split_on "/" target) with
                         | inr (cur', count') => loop count' cur' rest'
                         | inl e => inl e
                         end
                     end
               | Some _ => loop count (cur ++ [name]) rest'
               end
         | inr _ => inl ENOTDIR
         | inl e => inl e
         end
     end) count cur rest.

(** [os.stat]: the node a path leads to, links followed. *)
Definition stat (root : node) (p : path) : errno + node :=
  match namei (S MAXSYMLINKS) root 0 [] p with
  | inr (q, _) => walk root q
  | inl e => inl e
  end.

(** Directory entries: binding a name (in place when it is there, at the
    end otherwise) and unbinding it. *)
Fixpoint set_child (n : string) (c : node) (es : list (string * node))
    : list (string * node) :=
  match es with
  | [] => [(n, c)]
  | (m, c') :: es' =>
      if String.eqb m n then (n, c) :: es' else (m, c') :: set_child n c es'
  end.

Fixpoint del_child (n : string) (es : list (string * node))
    : list (string * node) :=
  match es with
  | [] => []
  | (m, c') :: es' =>
      if String.eqb m n then del_child n es' else (m, c') :: del_child n es'
  end.

(** The tree with the entry at [p] bound to [c] ([Some c]) or removed
    ([None]).  Nothing changes when [p] is the root or when the directory
    that should hold the entry is not there.  The directory that holds
    the entry keeps its inode: that its modification time changes is not
    followed. *)
Fixpoint put (t : node) (p : path) (o : option node) : node :=
  match p, t with
  | n :: p', Dir i sz es =>
      match p' with
      | [] =>
          Dir i sz (match o with
                    | Some c => set_child n c es
                    | None => del_child n es
                    end)
      | _ :: _ =>
          match child n es with
          | Some c => Dir i sz (set_child n (put c p' o) es)
          | None => t
          end
      end
  | _, _ => t
  end.

End Vfs.

Export Vfs.

(** ** The Python runtime *)

(** The exception classes the shell can meet, each the class of the
    exception itself ([type(e)]); all derive from [Exception], and
    [UnicodeDecodeError] from [ValueError]. *)
Inductive exn_class :=
| FileNotFoundError | NotADirectoryError | IsADirectoryError
| FileExistsError | PermissionError | OSError | ValueError
| UnicodeDecodeError | RuntimeError | EOFError
| SameFileError | ShutilError.

(** An exception: its class and [str(e)]. *)
Record exn := Exn { exn_cls : exn_class; exn_str : string }.

(** What the process does to the outside, in order. *)
Inductive event :=
| Out_line (line : string)   (** [print(line)] *)
| Out_text (text : string)   (** [print(text, end=...)] with an empty end,
                                 and the prompt of [input] *)
| Log (msg : string).        (** [logger.info(msg)] *)

(** The entries of the log. *)
Definition logged (tr : list event) : list string :=
  omap (fun ev => match ev with Log m => Some m | _ => None end) tr.

(** What went to standard output. *)
Definition printed (tr : list event) : string :=
  String.concat EmptyString
    (omap (fun ev => match ev with
                     | Out_line l => Some (l +:+ String "010" EmptyString)
                     | Out_text t => Some t
                     | Log _ => None
                     end) tr).

(** The shell object and the process around it. *)
Record machine := Machine {
  pwd : path;             (** [self.pwd] *)
  root : node;            (** the file tree *)
  home : path;            (** what [Path.home()] returns *)
  euid : N;               (** owner of the files the process creates *)
  egid : N;
  clock : Z;              (** the time stamp of a write *)
  stdin : list string;    (** the lines [input] will read *)
  trace : list event      (** the output so far *)
}.

Definition set_pwd (p : path) (m : machine) : machine :=
  Machine p (root m) (home m) (euid m) (egid m) (clock m) (stdin m) (trace m).
Definition set_root (t : node) (m : machine) : machine :=
  Machine (pwd m) t (home m) (euid m) (egid m) (clock m) (stdin m) (trace m).
Definition set_stdin (l : list string) (m : machine) : machine :=
  Machine (pwd m) (root m) (home m) (euid m) (egid m) (clock m) l (trace m).
Definition emit (evs : list event) (m : machine) : machine :=
  Machine (pwd m) (root m) (home m) (euid m) (egid m) (clock m) (stdin m)
    (trace m ++ evs).

(** A computation returns or raises, and leaves a machine either way. *)
Inductive outcome (A : Type) :=
| Ok (a : A)
| Raise (e : exn).
Arguments Ok {A} a.
Arguments Raise {A} e.

Definition Py (A : Type) : Type := machine -> outcome A * machine.

Definition ret {A} (a : A) : Py A := fun m => (Ok a, m).
Definition bind {A B} (c : Py A) (k : A -> Py B) : Py B :=
  fun m => match c m with
           | (Ok a, m') => k a m'
           | (Raise e, m') => (Raise e, m')
           end.
Definition raise {A} (cls : exn_class) (msg : string) : Py A :=
  fun m => (Raise (Exn cls msg), m).
(** [try: body except Exception as e: handler(e)]. *)
Definition try_except {A} (body : Py A) (handler : exn -> Py A) : Py A :=
  fun m => match body m with
           | (Ok a, m') => (Ok a, m')
           | (Raise e, m') => handler e m'
           end.

Definition gets {A} (f : machine -> A) : Py A := fun m => (Ok (f m), m).
Definition modify (f : machine -> machine) : Py unit := fun m => (Ok tt, f m).

Declare Scope py_scope.
Delimit Scope py_scope with py.
Notation "x <- c ;; k" := (bind c (fun x => k))
  (at level 100, c at next level, right associativity) : py_scope.
Notation "c ;; k" := (bind c (fun _ => k))
  (at level 100, right associativity) : py_scope.
Open Scope py_scope.

(** [for x in xs: body(x)]. *)
Fixpoint for_each {A} (xs : list A) (body : A -> Py unit) : Py unit :=
  match xs with
  | [] => ret tt
  | x :: xs' => body x ;; for_each xs' body
  end.

Definition print (s : string) : Py unit := modify (emit [Out_line s]).
Definition print_end (s : string) : Py unit := modify (emit [Out_text s]).
Definition logger_info (s : string) : Py unit := modify (emit [Log s]).

(** [input(prompt)]. *)
Definition input (prompt : string) : Py string :=
  print_end prompt ;;
  l <- gets stdin ;;
  match l with
  | [] => raise EOFError "EOF when reading a line"
  | x :: l' => modify (set_stdin l') ;; ret x
  end.

(** *** Operating-system errors *)

Definition errno_class (e : errno) : exn_class :=
  match e with
  | ENOENT => FileNotFoundError
  | ENOTDIR => NotADirectoryError
  | EISDIR => IsADirectoryError
  | EEXIST => FileExistsError
  | ELOOP | EBUSY => OSError
  end.

Definition strerror (e : errno) : string :=
  match e with
  | ENOENT => "[Errno 2] No such file or directory"
  | ENOTDIR => "[Errno 20] Not a directory"
  | EISDIR => "[Errno 21] Is a directory"
  | ELOOP => "[Errno 40] Too many levels of symbolic links"
  | EBUSY => "[Errno 16] Device or resource busy"
  | EEXIST => "[Errno 17] File exists"
  end.

(** The [OSError] a failed system call on [p] raises. *)
Definition os_error {A} (e : errno) (p : path) : Py A :=
  raise (errno_class e) (strerror e +:+ ": " +:+ repr (str p)).

(** *** [pathlib.Path] against the tree *)

(** [p.resolve()] (Python 3.10 to 3.12): [os.path.realpath], which
    normalises what it comes to, a path it gave up on at a link loop
    too; then [stat] on the result, of which only [ELOOP] is reported, as
    a [RuntimeError]. *)
Definition resolve (p : path) : Py path :=
  t <- gets root ;;
  let s := normpath (fst (realpath t p)) in
  match stat t s with
  | inl ELOOP => raise RuntimeError ("Symlink loop from " +:+ repr (str s))
  | _ => ret s
  end.

(** [p.exists()]: a [stat] that fails with [ENOENT], [ENOTDIR] or
    [ELOOP] reads as "no".  These are the errors [stat] has here; past
    the limits of the file system on names it fails otherwise, and
    [exists] raises ([within_limits] below). *)
Definition exists_ (p : path) : Py bool :=
  t <- gets root ;;
  ret (match stat t p with inr _ => true | inl _ => false end).

(** [p.is_dir()], where [p.exists()] has passed, and [os.path.isdir(p)],
    which never raises. *)
Definition is_dir (p : path) : Py bool :=
  t <- gets root ;;
  ret (match stat t p with inr (Dir _ _ _) => true | _ => false end).

(** [p.iterdir()]: the children of a directory, in on-disk order. *)
Definition iterdir (p : path) : Py (list path) :=
  t <- gets root ;;
  match stat t p with
  | inr (Dir _ _ es) => ret (map (fun e => p ++ [fst e]) es)
  | inr _ => os_error ENOTDIR p
  | inl e => os_error e p
  end.

(** [Path.home()]. *)
Definition Path_home : Py path := gets home.

(** The order of [PurePath.__lt__]: component by component, each by code
    point. *)
Fixpoint path_leb (p q : path) : bool :=
  match p, q with
  | [], _ => true
  | _ :: _, [] => false
  | a :: p', b :: q' =>
      match String.compare a b with
      | Lt => true
      | Gt => false
      | Eq => path_leb p' q'
      end
  end.

(** [sorted(paths)]. *)
Definition sorted (ps : list path) : list path := merge_sort path_leb ps.

(** *** [os.stat_result] and [stat.filemode] *)

Record stat_result := StatResult {
  st_mode : N; st_uid : N; st_gid : N; st_size : N; st_mtime : Z }.

Definition S_IFREG : N := 32768.   (* 0o100000 *)
Definition S_IFDIR : N := 16384.   (* 0o040000 *)
Definition S_IFLNK : N := 40960.   (* 0o120000 *)

Definition node_stat (n : node) : stat_result :=
  match n with
  | File i data =>
      StatResult (N.lor S_IFREG (N.land (i_perm i) 4095)) (i_uid i) (i_gid i)
        (N.of_nat (String.length data)) (i_mtime i)
  | Dir i sz _ =>
      StatResult (N.lor S_IFDIR (N.land (i_perm i) 4095)) (i_uid i) (i_gid i)
        sz (i_mtime i)
  | Symlink target =>
      StatResult (N.lor S_IFLNK 511) 0 0 (N.of_nat (String.length target)) 0
  end.

(** [p.stat()]. *)
Definition Path_stat (p : path) : Py stat_result :=
  t <- gets root ;;
  match stat t p with
  | inr n => ret (node_stat n)
  | inl e => os_error e p
  end.

(** [stat._filemode_table]: per output character, the bit masks to try in
    order. *)
Definition filemode_table : list (list (N * string)) :=
  [ [(S_IFLNK, "l"); (49152, "s"); (S_IFREG, "-"); (24576, "b");
     (S_IFDIR, "d"); (8192, "c"); (4096, "p")];
    [(256, "r")]; [(128, "w")]; [(2112, "s"); (2048, "S"); (64, "x")];
    [(32, "r")]; [(16, "w")]; [(1032, "s"); (1024, "S"); (8, "x")];
    [(4, "r")]; [(2, "w")]; [(513, "t"); (512, "T"); (1, "x")] ]%N.

Fixpoint filemode_char (mode : N) (row : list (N * string)) : string :=
  match row with
  | [] => "-"
  | (bit, char) :: row' =>
      if N.eqb (N.land mode bit) bit then char else filemode_char mode row'
  end.

Definition filemode (mode : N) : string :=
  String.concat EmptyString (map (filemode_char mode) filemode_table).

(** *** Files: [open], [os.remove], [shutil.copy], [shutil.rmtree]

    Access rights are not checked: the process may read and write whatever
    it can name. *)

(** [open(p, "rb").read()]. *)
Definition read_bytes (p : path) : Py string :=
  t <- gets root ;;
  match stat t p with
  | inr (File _ data) => ret data
  | inr _ => os_error EISDIR p
  | inl e => os_error e p
  end.

(** [open(p, "wb").write(data)]: the last component is followed when it is
    a link, an existing file is truncated and keeps its inode, a missing one
    is created in its directory. *)
Definition write_bytes (p : path) (data : string) (perm : N) : Py unit :=
  m <- gets id ;;
  match realpath (root m) p with
  | (_, false) => os_error ELOOP p
  | (q, true) =>
      match walk (root m) q with
      | inr (File i _) =>
          let i' := Inode (i_perm i) (i_uid i) (i_gid i) (clock m) in
          modify (set_root (put (root m) q (Some (File i' data))))
      | inr (Dir _ _ _) => os_error EISDIR p
      | inr (Symlink _) => os_error ELOOP p
      | inl _ =>
          match walk (root m) (parent q) with
          | inr (Dir _ _ _) =>
              let i' := Inode perm (euid m) (egid m) (clock m) in
              modify (set_root (put (root m) q (Some (File i' data))))
          | inr _ => os_error ENOTDIR p
          | inl e => os_error e p
          end
      end
  end.

(** [os.chmod(p, perm)]. *)
Definition chmod (p : path) (perm : N) : Py unit :=
  t <- gets root ;;
  match realpath t p with
  | (_, false) => os_error ELOOP p
  | (q, true) =>
      match walk t q with
      | inr (File i data) =>
          modify (set_root (put t q
            (Some (File (Inode perm (i_uid i) (i_gid i) (i_mtime i)) data))))
      | inr (Dir i sz es) =>
          modify (set_root (put t q
            (Some (Dir (Inode perm (i_uid i) (i_gid i) (i_mtime i)) sz es))))
      | inr (Symlink _) => os_error ELOOP p
      | inl e => os_error e p
      end
  end.

(** [os.path.samefile] as [shutil._samefile] uses it: a failing [stat]
    reads as "no"; without hard links, one file has one resolved path. *)
Definition samefile (p q : path) : Py bool :=
  t <- gets root ;;
  ret (match stat t p, stat t q with
       | inr _, inr _ => bool_decide (realpath t p = realpath t q)
       | _, _ => false
       end).

(** [shutil.copyfile(src, dst)]; a file it creates has mode [0o644] until
    [copymode] sets it.  [dst_repr] is [repr(dst)]. *)
Definition copyfile (src dst : path) (dst_repr : string) : Py unit :=
  same <- samefile src dst ;;
  if same then
    raise SameFileError
      ("PosixPath(" +:+ repr (str src) +:+ ") and " +:+ dst_repr
         +:+ " are the same file")
  else
    data <- read_bytes src ;;
    write_bytes dst data 420.

(** [shutil.copymode(src, dst)]. *)
Definition copymode (src dst : path) : Py unit :=
  st <- Path_stat src ;;
  chmod dst (N.land (st_mode st) 4095).

(** [shutil.copy(src, dst)] on two [Path]s: into a directory the
    destination is a [str], joined from it and the name of the source. *)
Definition shutil_copy (src dst : path) : Py unit :=
  d <- is_dir dst ;;
  let dst_repr :=
    if d then repr (str (dst ++ [name src]))
    else "PosixPath(" +:+ repr (str dst) +:+ ")" in
  let dst := if d then dst ++ [name src] else dst in
  copyfile src dst dst_repr ;;
  copymode src dst.

(** [os.remove(p)]: the entry itself, never what a link points to. *)
Definition os_remove (p : path) : Py unit :=
  t <- gets root ;;
  match walk t p with
  | inr (Dir _ _ _) => os_error EISDIR p
  | inr _ => modify (set_root (put t p None))
  | inl e => os_error e p
  end.

(** [shutil.rmtree(p)].  The library removes entry by entry and leaves
    what it has got to when a removal fails; with access rights unchecked
    none fails here, and the tree goes at once. *)
Definition shutil_rmtree (p : path) : Py unit :=
  t <- gets root ;;
  match walk t p with
  | inr (Dir i sz _) =>
      match p with
      | [] => modify (set_root (Dir i sz [])) ;; os_error EBUSY p
      | _ :: _ => modify (set_root (put t p None))
      end
  | inr (File _ _) => os_error ENOTDIR p
  | inr (Symlink _) => raise OSError "Cannot call rmtree on a symbolic link"
  | inl e => os_error e p
  end.

(** *** What is taken as given

    [shutil.copytree] (a recursive copy that follows links and collects its
    errors) and [shutil.move] (a rename with a copy-and-delete fallback)
    act on the tree alone: from the machine and two paths they give the new
    tree and the exception raised, if any.  [strftime_mtime t] is
    [datetime.fromtimestamp(t).strftime("%b %d %H:%M")], which depends on
    the time zone and the locale of the process.  [decode b] is what the
    codec of the locale makes of the bytes of a file: the text, or the
    message of the [UnicodeDecodeError]. *)
Class Library := {
  copytree : machine -> path -> path -> node * option exn;
  move : machine -> path -> path -> node * option exn;
  strftime_mtime : Z -> string;
  decode : string -> string + string
}.

(** [open(p, "r").read()]: the bytes decoded, the line ends translated. *)
Definition read_text {lib : Library} (p : path) : Py string :=
  data <- read_bytes p ;;
  match decode data with
  | inr text => ret (universal_newlines text)
  | inl msg => raise UnicodeDecodeError msg
  end.

Definition lift_tree_op (op : machine -> node * option exn) : Py unit :=
  fun m =>
    match op m with
    | (t, None) => (Ok tt, set_root t m)
    | (t, Some e) => (Raise e, set_root t m)
    end.

(** ** The shell ([src/shell.py]) *)

Section Shell.

Context {lib : Library}.

Definition parse_command (line : string) : list string :=
  split_ws (strip line).

(** The loop at the head of [ls]: [(detailed, path_str)]. *)
Definition ls_scan (args : list string) : bool * option string :=
  fold_left
    (fun '(detailed, path_str) arg =>
       if String.eqb arg "-l" then (true, path_str) else (detailed, Some arg))
    args (false, None).

Definition ls (args : list string) : Py unit :=
  let '(detailed, path_str) := ls_scan args in
  self_pwd <- gets pwd ;;
  let path :=
    match path_str with
    | Some s => if String.eqb s EmptyString then self_pwd else joinpath self_pwd s
    | None => self_pwd
    end in
  path <- resolve path ;;
  e <- exists_ path ;;
  if negb e then raise FileNotFoundError "No such file or directory" else
  d <- is_dir path ;;
  if negb d then raise NotADirectoryError "Not a directory" else
  items <- iterdir path ;;
  for_each (sorted items) (fun item =>
    if detailed then
      st <- Path_stat item ;;
      let mode := filemode (st_mode st) in
      let owner := pretty (st_uid st) in
      let group := pretty (st_gid st) in
      let size := pad_left 8 (pretty (st_size st)) in
      let mtime := strftime_mtime (st_mtime st) in
      print (mode +:+ " " +:+ owner +:+ " " +:+ group +:+ " " +:+ size
               +:+ " " +:+ mtime +:+ " " +:+ name item)
    else
      print (name item)).

Definition cd (args : list string) : Py unit :=
  match args with
  | [arg] =>
      new_path <-
        (if String.eqb arg "~" then Path_home
         else if String.eqb arg ".." then
           self_pwd <- gets pwd ;; ret (parent self_pwd)
         else
           self_pwd <- gets pwd ;; ret (joinpath self_pwd arg)) ;;
      new_path <- resolve new_path ;;
      e <- exists_ new_path ;;
      if negb e then raise FileNotFoundError "No such file or directory" else
      d <- is_dir new_path ;;
      if negb d then raise NotADirectoryError "Not a directory" else
      modify (set_pwd new_path)
  | _ => raise ValueError "cd takes exactly one argument"
  end.

Definition cat (args : list string) : Py unit :=
  match args with
  | [arg] =>
      self_pwd <- gets pwd ;;
      path <- resolve (joinpath self_pwd arg) ;;
      e <- exists_ path ;;
      if negb e then raise FileNotFoundError "No such file or directory" else
      d <- is_dir path ;;
      if d then raise IsADirectoryError "Is a directory" else
      text <- read_text path ;;
      print_end text
  | _ => raise ValueError "cat takes exactly one argument"
  end.

(** The head of [cp] and [rm]: a leading ["-r"] is the flag. *)
Definition strip_r (args : list string) : bool * list string :=
  match args with
  | a :: args' => if String.eqb a "-r" then (true, args') else (false, args)
  | [] => (false, args)
  end.

Definition cp (args : list string) : Py unit :=
  let '(r, args) := strip_r args in
  match args with
  | [a0; a1] =>
      self_pwd <- gets pwd ;;
      let source := joinpath self_pwd a0 in
      let dest := joinpath self_pwd a1 in
      source <- resolve source ;;
      dest <- resolve dest ;;
      e <- exists_ source ;;
      if negb e then raise FileNotFoundError "No such file or directory" else
      d <- is_dir source ;;
      if d && negb r then raise IsADirectoryError "omit -r for directories" else
      d <- is_dir source ;;
      if d then lift_tree_op (fun m => copytree m source dest)
      else shutil_copy source dest
  | _ => raise ValueError "cp requires source and destination"
  end.

Definition mv (args : list string) : Py unit :=
  match args with
  | [a0; a1] =>
      self_pwd <- gets pwd ;;
      let source := joinpath self_pwd a0 in
      let dest := joinpath self_pwd a1 in
      source <- resolve source ;;
      dest <- resolve dest ;;
      e <- exists_ source ;;
      if negb e then raise FileNotFoundError "No such file or directory" else
      lift_tree_op (fun m => move m source dest)
  | _ => raise ValueError "mv requires source and destination"
  end.

Definition rm (args : list string) : Py unit :=
  let '(r, args) := strip_r args in
  match args with
  | [arg] =>
      self_pwd <- gets pwd ;;
      path <- resolve (joinpath self_pwd arg) ;;
      if String.eqb (str path) "/" then
        raise PermissionError "cannot remove root directory" else
      self_pwd <- gets pwd ;;
      up <- resolve (parent self_pwd) ;;
      if bool_decide (path = up) then
        raise PermissionError "cannot remove parent directory" else
      e <- exists_ path ;;
      if negb e then raise FileNotFoundError "No such file or directory" else
      d <- is_dir path ;;
      if d && negb r then raise IsADirectoryError "omit -r for directories" else
      d <- is_dir path ;;
      if d then
        confirm <- input ("Remove directory " +:+ quoted (str path) +:+ "? (y/n) ") ;;
        if negb (String.eqb (lower confirm) "y") then ret tt
        else shutil_rmtree path
      else os_remove path
  | _ => raise ValueError "rm takes exactly one argument"
  end.

(** [self.commands]. *)
Definition commands : list (string * (list string -> Py unit)) :=
  [("ls", ls); ("cd", cd); ("cat", cat); ("cp", cp); ("mv", mv); ("rm", rm)].

(** [cmd in self.commands] and [self.commands[cmd]] in one. *)
Fixpoint lookup_command (cmd : string)
    (table : list (string * (list string -> Py unit)))
    : option (list string -> Py unit) :=
  match table with
  | [] => None
  | (k, h) :: table' =>
      if String.eqb k cmd then Some h else lookup_command cmd table'
  end.

Definition execute_command (tokens : list string) : Py unit :=
  match tokens with
  | [] => ret tt
  | cmd :: args =>
      let line := join " " tokens in
      logger_info line ;;
      match lookup_command cmd commands with
      | Some handler =>
          try_except (handler args)
            (fun e => print (exn_str e) ;;
                      logger_info ("ERROR: " +:+ exn_str e))
      | None =>
          let error := "Unknown command" in
          print error ;;
          logger_info ("ERROR: " +:+ error)
      end
  end.

End Shell.

(** ** The loop ([src/main.py])

    An interrupt from the keyboard comes from outside at any moment and
    is not part of the model; the branch that handles it is left out. *)

Section Main.

Context {lib : Library}.

(** [raise e], for an exception in hand. *)
Definition reraise {A} (e : exn) : Py A := fun m => (Raise e, m).

(** One turn of [while True]: [true] to go round again, [false] for
    [break]. *)
Definition main_turn : Py bool :=
  try_except
    (self_pwd <- gets pwd ;;
     line <- input (str self_pwd +:+ "$ ") ;;
     if String.eqb (lower (strip line)) "exit" then ret false
     else
       let tokens := split_ws (strip line) in
       execute_command tokens ;;
       ret true)
    (fun e =>
       match exn_cls e with
       | EOFError => ret false
       | _ => reraise e
       end).

(** The loop, for at most [turns] turns: [None] when they are used up
    before the loop is left. *)
Fixpoint main_loop (turns : nat) (m : machine) : option (outcome unit * machine) :=
  match turns with
  | 0 => None
  | S turns' =>
      match main_turn m with
      | (Ok true, m') => main_loop turns' m'
      | (Ok false, m') => Some (Ok tt, m')
      | (Raise e, m') => Some (Raise e, m')
      end
  end.

(** [main()], the shell being the machine's: every turn reads a line, so
    one turn more than there are lines is enough (theorem
    [main_loop_enough]). *)
Definition main (m : machine) : option (outcome unit * machine) :=
  main_loop (S (List.length (stdin m))) m.

End Main.

(** * Vocabulary of the properties *)

(** A component that names an entry: not empty, not ["."], not [".."]. *)
Definition plain (n : string) : Prop := n ≠ EmptyString ∧ n ≠ "." ∧ n ≠ "..".

Definition is_link (r : errno + node) : Prop :=
  match r with inr (Symlink _) => True | _ => False end.

(** A path in resolved form: plain components, and no link at any prefix. *)
Definition resolved (t : node) (p : path) : Prop :=
  Forall plain p ∧ ∀ q n, (q ++ [n]) `prefix_of` p → ¬ is_link (walk t (q ++ [n])).

(** Two lookups that differ at most in the entries of a directory. *)
Definition same_kind (r r' : errno + node) : Prop :=
  match r, r' with
  | inr (Dir i sz _), inr (Dir i' sz' _) => i = i' ∧ sz = sz'
  | _, _ => r = r'
  end.

(** [keeps f c]: running [c] leaves [f] of the machine as it was, whether
    [c] returns or raises. *)
Definition keeps {A B} (f : machine → B) (c : Py A) : Prop :=
  ∀ m, f (snd (c m)) = f m.

(** [quiet_on_raise c]: when [c] raises, the machine is as it was. *)
Definition quiet_on_raise {A} (c : Py A) : Prop :=
  ∀ m e m', c m = (Raise e, m') → m' = m.

(** [raises P c]: whatever [c] raises satisfies [P]. *)
Definition raises {A} (P : exn → Prop) (c : Py A) : Prop :=
  ∀ m e m', c m = (Raise e, m') → P e.

(** The log of a machine. *)
Definition log_of (m : machine) : list string := logged (trace m).

(** The entry [execute_command] logs on entry. *)
Definition entry (tokens : list string) : event := Log (join " " tokens).

(** The arguments [ls] reads: the flag when it occurs, and the last token
    that is not the flag. *)
Definition ls_read (args : list string) : list string :=
  (if bool_decide ("-l" ∈ args) then ["-l"] else [])
    ++ option_list (last (filter (λ a, a ≠ "-l") args)).

(** The two shapes of a call of [rm] on one path. *)
Definition rm_args (r : bool) (arg : string) : list string :=
  if r then ["-r"; arg] else [arg].

(** Code-point order on names. *)
Definition name_le (a b : string) : Prop := String.leb a b = true.

(** Where [ls] looks: the last token that is not ["-l"], joined to the
    working directory, or the working directory itself. *)
Definition ls_target (cwd : path) (args : list string) : path :=
  match last (filter (λ a, a ≠ "-l") args) with
  | Some s => joinpath cwd s
  | None => cwd
  end.

Fixpoint slash_free (s : string) : bool :=
  match s with
  | EmptyString => true
  | String c s' => negb (Ascii.eqb c "/") && slash_free s'
  end.

(** What can name a directory entry. *)
Definition filename (d : string) : Prop := plain d ∧ slash_free d = true.

(** The question [rm -r] asks. *)
Definition rm_prompt (p : path) : string :=
  "Remove directory " +:+ quoted (str p) +:+ "? (y/n) ".

(** The machine once [input] has asked and read one line. *)
Definition asked (p : path) (rest : list string) (m : machine) : machine :=
  set_stdin rest (emit [Out_text (rm_prompt p)] m).

(** A path at which a file can be written: a regular file is there, or
    nothing is and the directory that would hold it exists. *)
Definition can_hold (t : node) (q : path) : Prop :=
  match walk t q with
  | inr (File _ _) => True
  | inr _ => False
  | inl _ => ∃ i sz es, walk t (parent q) = inr (Dir i sz es)
  end.

(** The two shapes of a call of [cp] on a source and a destination. *)
Definition cp_args (r : bool) (a0 a1 : string) : list string :=
  if r then ["-r"; a0; a1] else [a0; a1].


(** A string without white space. *)
Fixpoint space_free (s : string) : bool :=
  match s with
  | EmptyString => true
  | String c s' => negb (is_space c) && space_free s'
  end.

(** A string of white space only. *)
Fixpoint blank (s : string) : bool :=
  match s with
  | EmptyString => true
  | String c s' => is_space c && blank s'
  end.

(** What [split] gives: not empty, no white space inside. *)
Definition token (w : string) : Prop := w ≠ EmptyString ∧ space_free w = true.

(** [consumes c]: what [c] leaves of standard input is an end of what it
    found. *)
Definition consumes {A} (c : Py A) : Prop :=
  ∀ m, stdin (snd (c m)) `suffix_of` stdin m.

(** The prompt of the loop. *)
Definition main_prompt (m : machine) : string := str (pwd m) +:+ "$ ".

(** The machine once the loop has shown its prompt and read a line. *)
Definition prompted (rest : list string) (m : machine) : machine :=
  set_stdin rest (emit [Out_text (main_prompt m)] m).

(** [grows c]: [c] adds to the output and never rewrites it. *)
Definition grows {A} (c : Py A) : Prop :=
  ∀ m, trace m `prefix_of` trace (snd (c m)).

(** [reads_a_line_at_most c]: [c] takes no line from standard input, or
    the first one only. *)
Definition reads_a_line_at_most {A} (c : Py A) : Prop :=
  ∀ m, stdin (snd (c m)) = stdin m ∨ ∃ x, stdin m = x :: stdin (snd (c m)).

(** Where [cd] goes, before resolution. *)
Definition cd_target (m : machine) (arg : string) : path :=
  if String.eqb arg "~" then home m
  else if String.eqb arg ".." then parent (pwd m)
  else joinpath (pwd m) arg.

(** The exceptions the handlers raise themselves. *)
Definition not_found : exn :=
  Exn FileNotFoundError "No such file or directory".
Definition not_a_directory : exn := Exn NotADirectoryError "Not a directory".

(** A text without the character NUL, which no system call takes. *)
Fixpoint nul_free (s : string) : bool :=
  match s with
  | EmptyString => true
  | String c s' => negb (Ascii.eqb c "000") && nul_free s'
  end.

(** A path within the limits of the file system: no name of more than
    [NAME_MAX] bytes, and fewer than [PATH_MAX] bytes in all ([stat]
    fails with [ENAMETOOLONG] otherwise, which the tree does not
    follow). *)
Definition NAME_MAX : nat := 255.
Definition PATH_MAX : nat := 4096.
Definition within_limits (p : path) : bool :=
  forallb (λ n, String.length n <=? NAME_MAX)%nat p
  && (String.length (str p) <? PATH_MAX)%nat.

(** A text of ASCII characters only. *)
Fixpoint ascii_text (s : string) : bool :=
  match s with
  | EmptyString => true
  | String c s' => (N_of_ascii c <? 128)%N && ascii_text s'
  end.

(** The time stamps [datetime.fromtimestamp] takes in every time zone:
    those of the years 1 to 9999, a day off at either end. *)
Definition datetime_ok (t : Z) : bool :=
  ((-62135510400 <=? t) && (t <? 253402214400))%Z.

(** A tree all of whose modification times are such. *)
Fixpoint times_ok (t : node) : bool :=
  match t with
  | File i _ => datetime_ok (i_mtime i)
  | Dir i _ es =>
      datetime_ok (i_mtime i)
      && (fix go (es : list (string * node)) : bool :=
            match es with
            | [] => true
            | (_, c) :: es' => times_ok c && go es'
            end) es
  | Symlink _ => true
  end.

(** What [ls] does once it has read its arguments: the listing of
    [target], [detailed] or not. *)
Definition ls_of {lib : Library} (detailed : bool) (target : path) : Py unit :=
  path <- resolve target ;;
  e <- exists_ path ;;
  if negb e then raise FileNotFoundError "No such file or directory" else
  d <- is_dir path ;;
  if negb d then raise NotADirectoryError "Not a directory" else
  items <- iterdir path ;;
  for_each (sorted items) (fun item =>
    if detailed then
      st <- Path_stat item ;;
      let mode := filemode (st_mode st) in
      let owner := pretty (st_uid st) in
      let group := pretty (st_gid st) in
      let size := pad_left 8 (pretty (st_size st)) in
      let mtime := strftime_mtime (st_mtime st) in
      print (mode +:+ " " +:+ owner +:+ " " +:+ group +:+ " " +:+ size
               +:+ " " +:+ mtime +:+ " " +:+ name item)
    else
      print (name item)).

(** Two lookups that give the same entry, or a directory both: of a
    directory neither the entries nor the attributes are compared. *)
Definition same_entry (r r' : errno + node) : Prop :=
  match r, r' with
  | inr (Dir _ _ _), inr (Dir _ _ _) => True
  | _, _ => r = r'
  end.

(** ** A machine to run on *)

Definition month_abbr (mon : Z) : string :=
  nth (Z.to_nat (mon - 1))
    ["Jan"; "Feb"; "Mar"; "Apr"; "May"; "Jun";
     "Jul"; "Aug"; "Sep"; "Oct"; "Nov"; "Dec"] EmptyString.

Definition two_digits (n : Z) : string :=
  if (n <? 10)%Z then "0" +:+ pretty n else pretty n.

(** ["%b %d %H:%M"] in UTC and the C locale. *)
Definition strftime_utc (t : Z) : string :=
  let days := (t / 86400)%Z in
  let secs := (t mod 86400)%Z in
  let z := (days + 719468)%Z in
  let era := (z / 146097)%Z in
  let doe := (z - era * 146097)%Z in
  let yoe := ((doe - doe / 1460 + doe / 36524 - doe / 146096) / 365)%Z in
  let doy := (doe - (365 * yoe + yoe / 4 - yoe / 100))%Z in
  let mp := ((5 * doy + 2) / 153)%Z in
  let day := (doy - (153 * mp + 2) / 5 + 1)%Z in
  let mon := (if mp <? 10 then mp + 3 else mp - 9)%Z in
  month_abbr mon +:+ " " +:+ two_digits day +:+ " "
    +:+ two_digits (secs / 3600) +:+ ":" +:+ two_digits (secs mod 3600 / 60).

(** *** The codec: UTF-8 *)

Definition in_range (lo hi : N) (c : ascii) : bool :=
  let n := N_of_ascii c in ((lo <=? n) && (n <=? hi))%N.

(** Where [s], read from position [pos] on, stops being UTF-8: the first
    and the last position the decoder reports, the byte at the first, and
    its reason.  A sequence is refused at the first byte that cannot
    continue it; over-long forms, surrogates and what lies past U+10FFFF
    are refused at their second byte. *)
Fixpoint utf8_fault (pos : N) (s : string) : option (N * N * ascii * string) :=
  match s with
  | EmptyString => None
  | String c s1 =>
      let b := N_of_ascii c in
      let fault (len : N) (reason : string) :=
        Some (pos, pos + len - 1, c, reason)%N in
      let lo2 := (if b =? 224 then 160 else if b =? 240 then 144 else 128)%N in
      let hi2 := (if b =? 237 then 159 else if b =? 244 then 143 else 191)%N in
      if (b <? 128)%N then utf8_fault (pos + 1) s1
      else if ((b <? 194) || (244 <? b))%N then fault 1%N "invalid start byte"
      else
        match s1 with
        | EmptyString => fault 1%N "unexpected end of data"
        | String c2 s2 =>
            if negb (in_range lo2 hi2 c2)
            then fault 1%N "invalid continuation byte"
            else if (b <? 224)%N then utf8_fault (pos + 2) s2
            else
              match s2 with
              | EmptyString => fault 2%N "unexpected end of data"
              | String c3 s3 =>
                  if negb (in_range 128 191 c3)
                  then fault 2%N "invalid continuation byte"
                  else if (b <? 240)%N then utf8_fault (pos + 3) s3
                  else
                    match s3 with
                    | EmptyString => fault 3%N "unexpected end of data"
                    | String c4 s4 =>
                        if negb (in_range 128 191 c4)
                        then fault 3%N "invalid continuation byte"
                        else utf8_fault (pos + 4) s4
                    end
              end
        end
  end.

(** [bytes.decode("utf-8")]: the text is the bytes themselves. *)
Definition utf8_decode (s : string) : string + string :=
  match utf8_fault 0 s with
  | None => inr s
  | Some (first, last, c, reason) =>
      let b := N_of_ascii c in
      inl ("'utf-8' codec can't decode "
           +:+ (if (first =? last)%N
                then "byte 0x" +:+ hex_digit (b / 16) +:+ hex_digit (b mod 16)
                       +:+ " in position " +:+ pretty first
                else "bytes in position " +:+ pretty first +:+ "-"
                       +:+ pretty last)
           +:+ ": " +:+ reason)
  end.

(** *** [shutil.copytree] and [shutil.move]

    Both are followed for a source below which there is no link and a
    destination that [resolve] has returned; the one case left aside is
    [copytree] into a directory that lies inside the source already, where
    the library copies its own output until the names get too long. *)

(** The copy [shutil.copy2] and [shutil.copystat] make of a node: content,
    permission bits and modification times are kept, the owner is the
    process. *)
Fixpoint copied (uid gid : N) (n : node) : node :=
  match n with
  | File i data => File (Inode (i_perm i) uid gid (i_mtime i)) data
  | Dir i sz es =>
      Dir (Inode (i_perm i) uid gid (i_mtime i)) sz
        ((fix go (es : list (string * node)) : list (string * node) :=
            match es with
            | [] => []
            | (n, c) :: es' => (n, copied uid gid c) :: go es'
            end) es)
  | Symlink target => Symlink target
  end.

(** [os.makedirs(p)], the new directory being [c] at once: the missing
    directories on the way are made, with the inode [fresh]; what fails
    is the [mkdir] at the path returned. *)
Fixpoint makedirs (fresh : inode) (t : node) (here p : path) (c : node)
    {struct p} : (errno * path) + node :=
  match p with
  | [] => inl (EEXIST, here)
  | n :: p' =>
      match t with
      | Dir i sz es =>
          match p' with
          | [] =>
              match child n es with
              | Some _ => inl (EEXIST, here ++ [n])
              | None => inr (Dir i sz (set_child n c es))
              end
          | _ :: _ =>
              match makedirs fresh
                      (from_option id (Dir fresh 4096 []) (child n es))
                      (here ++ [n]) p' c with
              | inr c' => inr (Dir i sz (set_child n c' es))
              | inl e => inl e
              end
          end
      | _ => inl (ENOTDIR, here ++ [n])
      end
  end.

Definition os_exn (e : errno) (p : path) : exn :=
  Exn (errno_class e) (strerror e +:+ ": " +:+ repr (str p)).

(** The inode of a directory the process makes, under the usual mask. *)
Definition fresh_dir (m : machine) : inode :=
  Inode 493 (euid m) (egid m) (clock m).

(** [shutil.copytree(src, dst)]: the entries are listed, the destination
    is made, the entries are copied. *)
Definition shutil_copytree (m : machine) (src dst : path) : node * option exn :=
  match walk (root m) src with
  | inr (Dir i sz es) =>
      match makedirs (fresh_dir m) (root m) [] dst
              (copied (euid m) (egid m) (Dir i sz es)) with
      | inr t => (t, None)
      | inl (e, q) => (root m, Some (os_exn e q))
      end
  | inr _ => (root m, Some (os_exn ENOTDIR src))
  | inl e => (root m, Some (os_exn e src))
  end.

(** [shutil.move(src, dst)]: into [dst] when that is a directory, under
    the name of the source, which must be free there; [os.rename], which
    puts the node where a file or nothing is; and, where [rename] fails,
    a copy followed by the removal of the source. *)
Definition shutil_move (m : machine) (src dst : path) : node * option exn :=
  let t := root m in
  let into := match stat t dst with inr (Dir _ _ _) => true | _ => false end in
  let real_dst := if into then dst ++ [name src] else dst in
  if into && bool_decide (src = dst) then (t, None)
  else if into && (match stat t real_dst with inr _ => true | inl _ => false end)
  then (t, Some (Exn ShutilError
                   ("Destination path " +:+ quoted (str real_dst)
                      +:+ " already exists")))
  else
    match walk t src with
    | inl e => (t, Some (os_exn e src))
    | inr n =>
        if bool_decide (src = real_dst) then (t, None)
        else if bool_decide (src `prefix_of` real_dst)
                && match n with Dir _ _ _ => true | _ => false end then
          (t, Some (Exn ShutilError
                      ("Cannot move a directory " +:+ quoted (str src)
                         +:+ " into itself " +:+ quoted (str dst) +:+ ".")))
        else
          match n, walk t real_dst, walk t (parent real_dst) with
          | Dir _ _ _, inr _, _ => (t, Some (os_exn EEXIST real_dst))
          | _, inr _, _ | _, inl _, inr (Dir _ _ _) =>
              (put (put t src None) real_dst (Some n), None)
          | Dir _ _ _, inl _, _ =>
              match makedirs (fresh_dir m) t [] real_dst
                      (copied (euid m) (egid m) n) with
              | inr t' => (put t' src None, None)
              | inl (e, q) => (t, Some (os_exn e q))
              end
          | _, inl _, inr _ => (t, Some (os_exn ENOTDIR real_dst))
          | _, inl _, inl e => (t, Some (os_exn e real_dst))
          end
    end.

#[export] Instance grafting_library : Library := {|
  copytree := shutil_copytree;
  move := shutil_move;
  strftime_mtime := strftime_utc;
  decode := utf8_decode
|}.

Definition dir_inode : inode := Inode 493 1000 1000 1700000000.
Definition file_inode : inode := Inode 420 1000 1000 1700000000.

(** What the tests create ([dir1], [file1.txt], [file2.txt]), and a
    directory named [~]. *)
Definition demo_entries : list (string * node) :=
  [("file2.txt", File file_inode "aboba aboba");
   ("dir1", Dir dir_inode 4096 []);
   ("~", Dir dir_inode 4096 []);
   ("file1.txt", File file_inode "aboba")].

(** [/home/u], and [/w] with these entries. *)
Definition demo_tree : node :=
  Dir dir_inode 4096
    [("home", Dir dir_inode 4096 [("u", Dir dir_inode 4096 [])]);
     ("w", Dir dir_inode 4096 demo_entries)].

Definition demo : machine :=
  {| pwd := ["w"]; root := demo_tree; home := ["home"; "u"];
     euid := 1000; egid := 1000; clock := 1700000600;
     stdin := ["Y"]; trace := [] |}.

(** [/w] with a file and a link whose target is missing. *)
Definition dangling_tree : node :=
  Dir dir_inode 4096
    [("w", Dir dir_inode 4096
        [("file1.txt", File file_inode "aboba"); ("gone", Symlink "nowhere")])].

Definition dangling : machine :=
  {| pwd := ["w"]; root := dangling_tree; home := ["home"; "u"];
     euid := 1000; egid := 1000; clock := 1700000600;
     stdin := []; trace := [] |}.

(** [/w] with a link to itself, a directory and a link to it. *)
Definition looping_tree : node :=
  Dir dir_inode 4096
    [("w", Dir dir_inode 4096
        [("l1", Symlink "l1"); ("d", Dir dir_inode 4096 []);
         ("sym", Symlink "d")])].

Definition looping : machine :=
  {| pwd := ["w"]; root := looping_tree; home := ["home"; "u"];
     euid := 1000; egid := 1000; clock := 1700000600;
     stdin := []; trace := [] |}.

(** [/w] with a file of text that has the line ends of three systems, and
    one that is no UTF-8. *)
Definition texts_tree : node :=
  Dir dir_inode 4096
    [("w", Dir dir_inode 4096
        [("lines.txt",
          File file_inode
            ("a" +:+ String "013" (String "010" ("b" +:+ String "013"
               ("c" +:+ String "010" EmptyString)))));
         ("raw.bin", File file_inode (String "255" "abc"))])].

Definition texts : machine :=
  {| pwd := ["w"]; root := texts_tree; home := ["home"; "u"];
     euid := 1000; egid := 1000; clock := 1700000600;
     stdin := []; trace := [] |}.

(** * Properties *)

(** ** Name resolution *)

Lemma joinrealpath_nil d t busy cur : joinrealpath d t busy cur [] = (cur, true).
Proof. destruct d; reflexivity. Qed.

Lemma joinrealpath_cons d t busy cur name rest :
  joinrealpath d t busy cur (name :: rest) =
    if String.eqb name EmptyString || String.eqb name "."
    then joinrealpath d t busy cur rest
    else if String.eqb name ".."
    then joinrealpath d t busy (removelast cur) rest
    else
      let newpath := cur ++ [name] in
      match walk t newpath with
      | inr (Symlink target) =>
          if bool_decide (newpath ∈ busy) then (newpath ++ rest, false)
          else
            match d with
            | 0 => (newpath ++ rest, false)
            | S d' =>
                let tgt := parse target in
                let start := if anchored tgt then [] else cur in
                match joinrealpath d' t (newpath :: busy) start (parts tgt) with
                | (cur', true) => joinrealpath d t busy cur' rest
                | (cur', false) => (cur' ++ rest, false)
                end
            end
      | _ => joinrealpath d t busy newpath rest
      end.
Proof. destruct d; reflexivity. Qed.

Lemma resolved_nil t : resolved t [].
Proof.
  split; [constructor|]. intros q n [k Hk]. destruct q; discriminate.
Qed.

Lemma resolved_snoc t p n :
  resolved t p → plain n → ¬ is_link (walk t (p ++ [n])) → resolved t (p ++ [n]).
Proof.
  intros [Hp Hl] Hn Hw. split.
  - apply Forall_app. split; [done|]. by constructor.
  - intros q n' Hpre.
    destruct (decide (q ++ [n'] = p ++ [n])) as [->|Hne]; [done|].
    apply Hl. destruct Hpre as [k Hk].
    destruct k as [|x k _] using rev_ind; [by rewrite app_nil_r in Hk|].
    rewrite app_assoc in Hk. apply app_inj_tail in Hk as [-> _]. by exists k.
Qed.

Lemma resolved_prefix t p q : resolved t p → q `prefix_of` p → resolved t q.
Proof.
  intros [Hp Hl] [k ->]. split.
  - by apply Forall_app in Hp as [? _].
  - intros q' n Hpre. apply Hl. by etrans; [|apply prefix_app_r].
Qed.

Lemma removelast_prefix {A} (p : list A) : removelast p `prefix_of` p.
Proof.
  destruct p as [|x p _] using rev_ind; [done|].
  rewrite removelast_last. by exists [x].
Qed.

Lemma resolved_parent t p : resolved t p → resolved t (parent p).
Proof. intros H. eapply resolved_prefix; [done|apply removelast_prefix]. Qed.

Lemma plain_eqb n :
  plain n →
  String.eqb n EmptyString || String.eqb n "." = false
  ∧ String.eqb n ".." = false.
Proof.
  intros (H1 & H2 & H3).
  destruct (String.eqb_spec n EmptyString), (String.eqb_spec n "."),
    (String.eqb_spec n ".."); done.
Qed.

(** What [joinrealpath] returns with the flag set is in resolved form. *)
Lemma joinrealpath_resolved t d :
  ∀ busy cur rest q,
    resolved t cur → joinrealpath d t busy cur rest = (q, true) → resolved t q.
Proof.
  induction d as [d IHd] using lt_wf_ind.
  intros busy cur rest. revert cur.
  induction rest as [|name rest IH]; intros cur q Hcur.
  - rewrite joinrealpath_nil. by intros [= <-].
  - rewrite joinrealpath_cons.
    destruct (String.eqb name EmptyString || String.eqb name ".") eqn:E1; [by apply IH|].
    destruct (String.eqb name "..") eqn:E2.
    { apply IH. by apply resolved_parent. }
    assert (plain name) as Hname.
    { apply orb_false_iff in E1 as [Ea Eb].
      repeat split; intros ->; simpl in *; discriminate. }
    cbv zeta.
    destruct (walk t (cur ++ [name])) as [e|[i data|i sz es|target]] eqn:Hw.
    1-3: apply IH, resolved_snoc; [done..|rewrite Hw; simpl; tauto].
    case_bool_decide; [done|].
    destruct d as [|d']; [done|].
    destruct (joinrealpath d' t _ _ _) as [cur' [|]] eqn:Hrec; [|done].
    apply IH. eapply (IHd d'); [lia| |exact Hrec].
    destruct (anchored _); [apply resolved_nil|done].
Qed.

(** A path in resolved form resolves to itself. *)
Lemma joinrealpath_fixed t d busy :
  ∀ rest cur,
    resolved t (cur ++ rest) → joinrealpath d t busy cur rest = (cur ++ rest, true).
Proof.
  induction rest as [|name rest IH]; intros cur Hres.
  - by rewrite joinrealpath_nil, app_nil_r.
  - rewrite joinrealpath_cons.
    assert (resolved t (cur ++ [name])) as Hcn.
    { eapply resolved_prefix; [done|]. exists rest. by rewrite <- app_assoc. }
    destruct Hcn as [Hpl Hln].
    apply Forall_app in Hpl as [_ Hpl]. apply Forall_inv in Hpl.
    destruct (plain_eqb _ Hpl) as [-> ->]. cbv zeta.
    specialize (Hln cur name (reflexivity _)).
    replace (cur ++ name :: rest) with ((cur ++ [name]) ++ rest) in *
      by by rewrite <- app_assoc.
    destruct (walk t (cur ++ [name])) as [e|[i data|i sz es|target]];
      [by apply IH..|done].
Qed.

Lemma realpath_resolved t p q : realpath t p = (q, true) → resolved t q.
Proof. apply joinrealpath_resolved, resolved_nil. Qed.

Lemma realpath_fixed t p : resolved t p → realpath t p = (p, true).
Proof. intros H. by apply (joinrealpath_fixed t _ [] p []). Qed.

(** [realpath] is idempotent. *)
Lemma realpath_idem t p q : realpath t p = (q, true) → realpath t q = (q, true).
Proof. intros H. eapply realpath_fixed, realpath_resolved, H. Qed.

Lemma walk_app t p k :
  walk t (p ++ k) = match walk t p with inr c => walk c k | inl e => inl e end.
Proof.
  revert t. induction p as [|n p IH]; intros t; simpl; [done|].
  destruct t as [| i sz es|]; try done. by destruct (child n es).
Qed.

Lemma namei_nil d t c cur : namei d t c cur [] = inr (cur, c).
Proof. destruct d; reflexivity. Qed.

Lemma namei_cons d t c cur name rest :
  namei d t c cur (name :: rest) =
    match walk t cur with
    | inr (Dir _ _ es) =>
        if String.eqb name EmptyString || String.eqb name "."
        then namei d t c cur rest
        else if String.eqb name ".." then namei d t c (removelast cur) rest
        else
          match child name es with
          | None => inl ENOENT
          | Some (Symlink target) =>
              if (MAXSYMLINKS <=? c)%nat then inl ELOOP
              else if String.eqb target EmptyString then inl ENOENT
              else
                match d with
                | 0 => inl ELOOP
                | S d' =>
                    let start := if String.prefix "/" target then [] else cur in
                    match namei d' t (S c) start (split_on "/" target) with
                    | inr (cur', c') => namei d t c' cur' rest
                    | inl e => inl e
                    end
                end
          | Some _ => namei d t c (cur ++ [name]) rest
          end
    | inr _ => inl ENOTDIR
    | inl e => inl e
    end.
Proof. destruct d; reflexivity. Qed.

(** Along a path in resolved form the kernel goes as [walk] does. *)
Lemma namei_resolved t d c :
  ∀ rest cur,
    resolved t (cur ++ rest) →
    match namei d t c cur rest with
    | inr (q, _) => walk t q
    | inl e => inl e
    end = walk t (cur ++ rest).
Proof.
  induction rest as [|name rest IH]; intros cur Hres.
  - by rewrite namei_nil, app_nil_r.
  - rewrite namei_cons.
    assert (resolved t (cur ++ [name])) as Hcn.
    { eapply resolved_prefix; [done|]. exists rest. by rewrite <- app_assoc. }
    destruct Hcn as [Hpl Hln].
    apply Forall_app in Hpl as [_ Hpl]. apply Forall_inv in Hpl.
    destruct (plain_eqb _ Hpl) as [-> ->].
    specialize (Hln cur name (reflexivity _)).
    rewrite walk_app in Hln. rewrite (walk_app t cur (name :: rest)).
    destruct (walk t cur) as [e|[i data|i sz es|target]] eqn:Hcur; try done.
    cbn [walk] in Hln |- *.
    destruct (child name es) as [c0|] eqn:Hc; [|done].
    assert (walk t ((cur ++ [name]) ++ rest) = walk c0 rest) as Hgo.
    { rewrite walk_app, (walk_app t cur [name]), Hcur. cbn [walk].
      by rewrite Hc. }
    destruct c0 as [i0 data0|i0 sz0 es0|tg]; [..|by destruct Hln];
      (rewrite IH by by rewrite <- app_assoc); exact Hgo.
Qed.

Lemma stat_resolved t p : resolved t p → stat t p = walk t p.
Proof. intros H. unfold stat. by apply (namei_resolved t _ 0 p []). Qed.

Lemma walk_no_loop t p : walk t p ≠ inl ELOOP.
Proof.
  revert t. induction p as [|n p IH]; intros t; simpl; [done|].
  destruct t as [| i sz es|]; try done. by destruct (child n es).
Qed.

Lemma normpath_from (p acc : path) :
  Forall plain p →
  fold_left
    (λ acc c,
       if String.eqb c EmptyString || String.eqb c "." then acc
       else if String.eqb c ".." then removelast acc
       else acc ++ [c])
    p acc
  = acc ++ p.
Proof.
  revert acc. induction p as [|n p IH]; intros acc Hp; simpl.
  { by rewrite app_nil_r. }
  apply Forall_cons in Hp as [Hn Hp].
  destruct (plain_eqb _ Hn) as [-> ->]. rewrite IH by done.
  by rewrite <- app_assoc.
Qed.

(** A path in resolved form is normal. *)
Lemma normpath_resolved t p : resolved t p → normpath p = p.
Proof. intros [Hp _]. unfold normpath. by rewrite normpath_from. Qed.

(** ** Updates of the tree *)

Lemma child_set_child n c es : child n (set_child n c es) = Some c.
Proof.
  induction es as [|[m c'] es IH]; simpl.
  - by rewrite String.eqb_refl.
  - destruct (String.eqb m n) eqn:E; simpl; [by rewrite String.eqb_refl|by rewrite E].
Qed.

Lemma child_set_child_ne n n' c es :
  n ≠ n' → child n' (set_child n c es) = child n' es.
Proof.
  intros Hne. induction es as [|[m c'] es IH]; simpl.
  - by destruct (String.eqb_spec n n').
  - destruct (String.eqb_spec m n) as [->|]; simpl.
    + by destruct (String.eqb_spec n n').
    + by rewrite IH.
Qed.

Lemma child_del_child n es : child n (del_child n es) = None.
Proof.
  induction es as [|[m c'] es IH]; simpl; [done|].
  destruct (String.eqb m n) eqn:E; simpl; [done|by rewrite E].
Qed.

Lemma child_del_child_ne n n' es :
  n ≠ n' → child n' (del_child n es) = child n' es.
Proof.
  intros Hne. induction es as [|[m c'] es IH]; simpl; [done|].
  destruct (String.eqb_spec m n) as [->|]; simpl.
  - rewrite IH. by destruct (String.eqb_spec n n').
  - by rewrite IH.
Qed.

(** After [put t q (Some c)] the entry at [q] is [c], when the directory
    that holds it is there. *)
Lemma walk_put_some t q c i sz es :
  q ≠ [] → walk t (parent q) = inr (Dir i sz es) →
  walk (put t q (Some c)) q = inr c.
Proof.
  revert t. induction q as [|n q IH]; intros t Hq Hpar; [done|].
  destruct q as [|n' q].
  - simpl in *. injection Hpar as ->. simpl. by rewrite child_set_child.
  - change (parent (n :: n' :: q)) with (n :: parent (n' :: q)) in Hpar.
    destruct t as [|i0 sz0 es0|]; try done.
    simpl in Hpar. change (put (Dir i0 sz0 es0) (n :: n' :: q) (Some c)) with
      (match child n es0 with
       | Some c0 => Dir i0 sz0 (set_child n (put c0 (n' :: q) (Some c)) es0)
       | None => Dir i0 sz0 es0
       end).
    destruct (child n es0) as [c0|] eqn:Hc; [|done].
    cbn [walk]. rewrite child_set_child. by apply IH.
Qed.

(** After [put t q None] there is no entry at [q]. *)
Lemma walk_put_none t q : q ≠ [] → ∃ e, walk (put t q None) q = inl e.
Proof.
  revert t. induction q as [|n q IH]; intros t Hq; [done|].
  destruct t as [i d|i0 sz0 es0|tg]; [by eexists| |by eexists].
  destruct q as [|n' q].
  - simpl. rewrite child_del_child. by eexists.
  - change (put (Dir i0 sz0 es0) (n :: n' :: q) None) with
      (match child n es0 with
       | Some c0 => Dir i0 sz0 (set_child n (put c0 (n' :: q) None) es0)
       | None => Dir i0 sz0 es0
       end).
    destruct (child n es0) as [c0|] eqn:Hc.
    + cbn [walk]. rewrite child_set_child. by apply IH.
    + cbn [walk]. rewrite Hc. by eexists.
Qed.

Lemma same_kind_refl r : same_kind r r.
Proof. by destruct r as [|[]]. Qed.

(** [put] at [q] is seen only at [q] and below. *)
Lemma walk_put_other t q o p :
  ¬ q `prefix_of` p → same_kind (walk t p) (walk (put t q o) p).
Proof.
  revert t p. induction q as [|n q IH]; intros t p Hpre.
  { exfalso. apply Hpre, prefix_nil. }
  destruct t as [i d|i0 sz0 es0|tg]; try apply same_kind_refl.
  destruct p as [|m p].
  { destruct q; simpl; [|destruct (child n es0)]; done. }
  destruct (decide (n = m)) as [->|Hne].
  - assert (¬ q `prefix_of` p) as Hpre'.
    { intros H. apply Hpre. by apply prefix_cons. }
    destruct q as [|n' q]; [exfalso; apply Hpre', prefix_nil|].
    change (put (Dir i0 sz0 es0) (m :: n' :: q) o) with
      (match child m es0 with
       | Some c0 => Dir i0 sz0 (set_child m (put c0 (n' :: q) o) es0)
       | None => Dir i0 sz0 es0
       end).
    destruct (child m es0) as [c0|] eqn:Hc; [|apply same_kind_refl].
    cbn [walk]. rewrite Hc, child_set_child. by apply IH.
  - assert (walk (put (Dir i0 sz0 es0) (n :: q) o) (m :: p)
            = walk (Dir i0 sz0 es0) (m :: p)) as ->; [|apply same_kind_refl].
    destruct q as [|n' q]; simpl.
    + destruct o; by rewrite ?child_set_child_ne, ?child_del_child_ne.
    + destruct (child n es0); simpl; by rewrite ?child_set_child_ne.
Qed.

(** ** Effects of the handlers *)

Lemma emit_emit a b m : emit b (emit a m) = emit (a ++ b) m.
Proof. unfold emit; simpl. by rewrite app_assoc. Qed.

Lemma logged_app tr tr' : logged (tr ++ tr') = logged tr ++ logged tr'.
Proof. apply omap_app. Qed.

Lemma bind_ok {A B} (c : Py A) (k : A → Py B) m a m' :
  c m = (Ok a, m') → bind c k m = k a m'.
Proof. unfold bind. by intros ->. Qed.

Lemma bind_raise {A B} (c : Py A) (k : A → Py B) m e m' :
  c m = (Raise e, m') → bind c k m = (Raise e, m').
Proof. unfold bind. by intros ->. Qed.

Section Keeps.
Context {B : Type} (f : machine → B).

Lemma keeps_ret {A} (a : A) : keeps f (ret a).
Proof. done. Qed.

Lemma keeps_raise {A} cls msg : keeps f (raise (A:=A) cls msg).
Proof. done. Qed.

Lemma keeps_gets {A} (g : machine → A) : keeps f (gets g).
Proof. done. Qed.

Lemma keeps_modify g : (∀ m, f (g m) = f m) → keeps f (modify g).
Proof. intros H m. apply H. Qed.

Lemma keeps_bind {A C} (c : Py A) (k : A → Py C) :
  keeps f c → (∀ a, keeps f (k a)) → keeps f (bind c k).
Proof.
  intros Hc Hk m. unfold bind. specialize (Hc m).
  destruct (c m) as [[a|e] m']; simpl in *; [|done].
  by rewrite Hk.
Qed.

Lemma keeps_try {A} (c : Py A) (h : exn → Py A) :
  keeps f c → (∀ e, keeps f (h e)) → keeps f (try_except c h).
Proof.
  intros Hc Hh m. unfold try_except. specialize (Hc m).
  destruct (c m) as [[a|e] m']; simpl in *; [done|].
  by rewrite Hh.
Qed.

Lemma keeps_for_each {A} (xs : list A) (body : A → Py unit) :
  (∀ x, keeps f (body x)) → keeps f (for_each xs body).
Proof.
  intros Hb. induction xs as [|x xs IH]; simpl; [apply keeps_ret|].
  apply keeps_bind; [apply Hb|done].
Qed.

Lemma keeps_lift_tree_op op :
  (∀ t m, f (set_root t m) = f m) → keeps f (lift_tree_op op).
Proof.
  intros H m. unfold lift_tree_op. by destruct (op m) as [t [e|]]; simpl.
Qed.

End Keeps.

Create HintDb py discriminated.

#[export] Hint Unfold os_error resolve exists_ is_dir iterdir Path_home Path_stat
  read_bytes read_text write_bytes chmod samefile copyfile copymode shutil_copy
  os_remove
  shutil_rmtree print print_end logger_info input : py.

(** One step of a frame proof: split the computation at its head. *)
Ltac keeps_step :=
  lazymatch goal with
  | |- keeps _ (bind _ _) => apply keeps_bind; [|intros ?]
  | |- keeps _ (ret _) => apply keeps_ret
  | |- keeps _ (raise _ _) => apply keeps_raise
  | |- keeps _ (gets _) => apply keeps_gets
  | |- keeps _ (for_each _ _) => apply keeps_for_each; intros ?
  | |- keeps _ (lift_tree_op _) => apply keeps_lift_tree_op; intros ? ?
  | |- keeps _ (modify _) => apply keeps_modify; intros ?
  | |- keeps _ (if ?b then _ else _) => destruct b
  | |- keeps _ (match ?x with _ => _ end) => destruct x
  | |- keeps _ _ => progress autounfold with py
  end.

Ltac keeps_tac := repeat keeps_step.

Lemma quiet_on_raise_bind {A C} (c : Py A) (k : A → Py C) :
  keeps id c → (∀ a, quiet_on_raise (k a)) → quiet_on_raise (bind c k).
Proof.
  intros Hc Hk m e m'. unfold bind. specialize (Hc m).
  destruct (c m) as [[a|e'] m1]; simpl in *; subst m1.
  - apply Hk.
  - by intros [= _ <-].
Qed.

Lemma quiet_on_raise_raise {A} cls msg : quiet_on_raise (raise (A:=A) cls msg).
Proof. by intros m e m' [= _ <-]. Qed.

Lemma quiet_on_raise_ok {A} (c : Py A) :
  (∀ m, ∃ a m', c m = (Ok a, m')) → quiet_on_raise c.
Proof. intros H m e m' Hc. destruct (H m) as (a & m1 & Hm). congruence. Qed.

Section Raises.
Context (P : exn → Prop).

Lemma raises_ret {A} (a : A) : raises P (ret a).
Proof. by intros m e m'. Qed.

Lemma raises_gets {A} (g : machine → A) : raises P (gets g).
Proof. by intros m e m'. Qed.

Lemma raises_modify g : raises P (modify g).
Proof. by intros m e m'. Qed.

Lemma raises_raise {A} cls msg : P (Exn cls msg) → raises P (raise (A:=A) cls msg).
Proof. by intros H m e m' [= <- _]. Qed.

Lemma raises_bind {A C} (c : Py A) (k : A → Py C) :
  raises P c → (∀ a, raises P (k a)) → raises P (bind c k).
Proof.
  intros Hc Hk m e m'. unfold bind. specialize (Hc m).
  destruct (c m) as [[a|e'] m1].
  - apply Hk.
  - intros [= <- <-]. by eapply Hc.
Qed.

Lemma raises_for_each {A} (xs : list A) (body : A → Py unit) :
  (∀ x, raises P (body x)) → raises P (for_each xs body).
Proof.
  intros Hb. induction xs as [|x xs IH]; simpl; [apply raises_ret|].
  apply raises_bind; [apply Hb|done].
Qed.

End Raises.

Ltac raises_step :=
  lazymatch goal with
  | |- raises _ (bind _ _) => apply raises_bind; [|intros ?]
  | |- raises _ (ret _) => apply raises_ret
  | |- raises _ (raise _ _) => apply raises_raise
  | |- raises _ (gets _) => apply raises_gets
  | |- raises _ (modify _) => apply raises_modify
  | |- raises _ (for_each _ _) => apply raises_for_each; intros ?
  | |- raises _ (if ?b then _ else _) => destruct b
  | |- raises _ (match ?x with _ => _ end) => destruct x
  | |- raises _ _ => progress autounfold with py
  end.

Ltac quiet_step :=
  lazymatch goal with
  | |- quiet_on_raise (bind _ _) =>
      apply quiet_on_raise_bind; [repeat keeps_step; done|intros ?]
  | |- quiet_on_raise (raise _ _) => apply quiet_on_raise_raise
  | |- quiet_on_raise (modify _) => apply quiet_on_raise_ok; by eexists _, _
  | |- quiet_on_raise (if ?b then _ else _) => destruct b
  | |- quiet_on_raise (match ?x with _ => _ end) => destruct x
  end.

Lemma grows_bind {A C} (c : Py A) (k : A → Py C) :
  grows c → (∀ a, grows (k a)) → grows (bind c k).
Proof.
  intros Hc Hk m. unfold bind. specialize (Hc m).
  destruct (c m) as [[a|e] m']; simpl in *; [|done].
  by etrans; [|apply Hk].
Qed.

Lemma grows_try {A} (c : Py A) (h : exn → Py A) :
  grows c → (∀ e, grows (h e)) → grows (try_except c h).
Proof.
  intros Hc Hh m. unfold try_except. specialize (Hc m).
  destruct (c m) as [[a|e] m']; simpl in *; [done|].
  by etrans; [|apply Hh].
Qed.

Lemma grows_for_each {A} (xs : list A) (body : A → Py unit) :
  (∀ x, grows (body x)) → grows (for_each xs body).
Proof.
  intros Hb. induction xs as [|x xs IH]; simpl; [by intros m|].
  apply grows_bind; [apply Hb|done].
Qed.

Lemma keeps_grows {A} (c : Py A) : keeps trace c → grows c.
Proof. intros H m. by rewrite H. Qed.

Lemma grows_emit evs : grows (modify (emit evs)).
Proof. intros m. simpl. by apply prefix_app_r. Qed.

Ltac grows_step :=
  lazymatch goal with
  | |- grows (bind _ _) => apply grows_bind; [|intros ?]
  | |- grows (for_each _ _) => apply grows_for_each; intros ?
  | |- grows (modify (emit _)) => apply grows_emit
  | |- grows (print _) => apply grows_emit
  | |- grows (print_end _) => apply grows_emit
  | |- grows (logger_info _) => apply grows_emit
  | |- grows (if ?b then _ else _) => destruct b
  | |- grows (match ?x with _ => _ end) => destruct x
  | |- grows (input _) => unfold input
  | |- grows _ => apply keeps_grows; solve [keeps_tac; done]
  end.

Section Frames.
Context {lib : Library}.

Lemma ls_keeps_pwd args : keeps pwd (ls args).
Proof. unfold ls. keeps_tac; done. Qed.

Lemma cat_keeps_pwd args : keeps pwd (cat args).
Proof. unfold cat. keeps_tac; done. Qed.

Lemma cp_keeps_pwd args : keeps pwd (cp args).
Proof. unfold cp. keeps_tac; done. Qed.

Lemma mv_keeps_pwd args : keeps pwd (mv args).
Proof. unfold mv. keeps_tac; done. Qed.

Lemma rm_keeps_pwd args : keeps pwd (rm args).
Proof. unfold rm. keeps_tac; done. Qed.

Lemma cd_quiet_on_raise args : quiet_on_raise (cd args).
Proof. unfold cd. repeat quiet_step. Qed.

(** No handler writes to the log. *)
Ltac log_frame :=
  keeps_tac; unfold log_of; simpl; rewrite ?logged_app; simpl;
  rewrite ?app_nil_r; done.

Lemma handlers_keep_log cmd handler args :
  lookup_command cmd commands = Some handler → keeps log_of (handler args).
Proof.
  unfold commands; simpl. intros H.
  repeat (case_match; [injection H as <-|]); [..|done].
  - unfold ls. log_frame.
  - unfold cd. log_frame.
  - unfold cat. log_frame.
  - unfold cp. log_frame.
  - unfold mv. log_frame.
  - unfold rm. log_frame.
Qed.

Lemma handlers_grow cmd handler args :
  lookup_command cmd commands = Some handler → grows (handler args).
Proof.
  unfold commands; simpl. intros H.
  repeat (case_match; [injection H as <-|]); [..|done].
  - unfold ls. repeat grows_step.
  - unfold cd. repeat grows_step.
  - unfold cat. repeat grows_step.
  - unfold cp. repeat grows_step.
  - unfold mv. repeat grows_step.
  - unfold rm. repeat grows_step.
Qed.

End Frames.

(** ** The dispatcher *)

Section Dispatcher.
Context {lib : Library}.

(** [execute_command] always returns: nothing a handler raises gets past
    it. *)
Lemma execute_command_returns tokens m :
  ∃ m', execute_command tokens m = (Ok tt, m').
Proof.
  destruct tokens as [|cmd args]; [by eexists|].
  unfold execute_command, bind, logger_info, try_except, print, modify.
  destruct (lookup_command cmd commands) as [h|]; [|by eexists].
  destruct (h args _) as [[[]|e] m1]; by eexists.
Qed.

(** C1: when the first token is a registered command and its handler
    raises, [execute_command] prints the exception's message, then logs
    ["ERROR: "] followed by the message, and returns normally: the entry
    for the line is logged before the handler runs, and the machine the
    handler left is otherwise untouched. *)
Theorem execute_command_swallows cmd args handler m e m' :
  lookup_command cmd commands = Some handler →
  handler args (emit [entry (cmd :: args)] m) = (Raise e, m') →
  execute_command (cmd :: args) m
  = (Ok tt, emit [Out_line (exn_str e); Log ("ERROR: " +:+ exn_str e)] m').
Proof.
  intros Hcmd Hrun.
  unfold execute_command, bind, logger_info, try_except, print, modify.
  rewrite Hcmd. unfold entry in Hrun. rewrite Hrun.
  cbn beta iota. by rewrite emit_emit.
Qed.

(** C2: when the first token is no registered command name,
    [execute_command] logs the line, prints ["Unknown command"], logs
    ["ERROR: Unknown command"], does nothing else and returns normally. *)
Theorem execute_command_unknown cmd args m :
  cmd ∉ map fst commands →
  execute_command (cmd :: args) m
  = (Ok tt, emit [entry (cmd :: args); Out_line "Unknown command";
                  Log "ERROR: Unknown command"] m).
Proof.
  intros Hcmd.
  assert (lookup_command cmd commands = None) as Hnone.
  { revert Hcmd. generalize commands. intros table.
    induction table as [|[k h] table IH]; simpl; [done|].
    intros Hin. apply not_elem_of_cons in Hin as [Hne Hin].
    destruct (String.eqb_spec k cmd); [congruence|by apply IH]. }
  unfold execute_command, bind, logger_info, print, modify.
  rewrite Hnone. cbn beta iota. by rewrite !emit_emit.
Qed.

(** C3: an empty token sequence leaves the machine, and so the log, as it
    was.  Otherwise the tokens joined with single spaces are logged first
    and the handler is run on the machine that has them in its log: what
    it emits comes after the entry.  When the handler returns, what it
    left is the result, with that one entry more in the log; when it
    raises, the message is printed and logged behind ["ERROR: "], one
    further entry; an unknown command gets the entry and
    ["ERROR: Unknown command"]. *)
Theorem execute_command_log tokens m :
  match tokens with
  | [] => execute_command tokens m = (Ok tt, m)
  | cmd :: args =>
      let line := join " " tokens in
      let entered := emit [Log line] m in
      match lookup_command cmd commands with
      | Some handler =>
          match handler args entered with
          | (Ok _, m') =>
              execute_command tokens m = (Ok tt, m')
              ∧ trace entered `prefix_of` trace m'
              ∧ log_of m' = log_of m ++ [line]
          | (Raise e, m') =>
              let failed :=
                emit [Out_line (exn_str e); Log ("ERROR: " +:+ exn_str e)] m' in
              execute_command tokens m = (Ok tt, failed)
              ∧ trace entered `prefix_of` trace m'
              ∧ log_of failed = log_of m ++ [line; "ERROR: " +:+ exn_str e]
          end
      | None =>
          let unknown :=
            emit [Log line; Out_line "Unknown command";
                  Log "ERROR: Unknown command"] m in
          execute_command tokens m = (Ok tt, unknown)
          ∧ log_of unknown = log_of m ++ [line; "ERROR: Unknown command"]
      end
  end.
Proof.
  destruct tokens as [|cmd args]; [done|]. cbv zeta.
  unfold execute_command, bind, logger_info, try_except, print, modify.
  generalize (join " " (cmd :: args)) as line; intros line.
  destruct (lookup_command cmd commands) as [h|] eqn:Hcmd.
  - pose proof (handlers_keep_log cmd h args Hcmd (emit [Log line] m)) as Hkeep.
    pose proof (handlers_grow cmd h args Hcmd (emit [Log line] m)) as Hgrow.
    clear Hcmd. unfold log_of in *.
    destruct (h args _) as [[[]|e] m1]; simpl in *.
    + split; [done|]. split; [done|]. rewrite Hkeep. by rewrite logged_app.
    + split; [by rewrite emit_emit|]. split; [done|].
      rewrite !logged_app, Hkeep, logged_app; simpl.
      by rewrite <- app_assoc.
  - split; [by rewrite !emit_emit|].
    unfold log_of; simpl. by rewrite !logged_app.
Qed.

End Dispatcher.

Section Handlers.
Context {lib : Library}.

(** ** The working directory *)

(** C6: [ls], [cat], [cp], [mv] and [rm] leave [self.pwd] as it was,
    whether they return or raise, and so does a [cd] that raises (it leaves
    the whole machine as it was). *)
Theorem pwd_changed_by_cd_only args m :
  pwd (snd (ls args m)) = pwd m
  ∧ pwd (snd (cat args m)) = pwd m
  ∧ pwd (snd (cp args m)) = pwd m
  ∧ pwd (snd (mv args m)) = pwd m
  ∧ pwd (snd (rm args m)) = pwd m
  ∧ ∀ e m', cd args m = (Raise e, m') → m' = m ∧ pwd m' = pwd m.
Proof.
  repeat split.
  - apply ls_keeps_pwd.
  - apply cat_keeps_pwd.
  - apply cp_keeps_pwd.
  - apply mv_keeps_pwd.
  - apply rm_keeps_pwd.
  - by eapply cd_quiet_on_raise.
  - f_equal. by eapply cd_quiet_on_raise.
Qed.

(** ** [ls]: arguments *)

Lemma ls_scan_from args d p :
  fold_left
    (fun '(detailed, path_str) arg =>
       if String.eqb arg "-l" then (true, path_str) else (detailed, Some arg))
    args (d, p)
  = (d || bool_decide ("-l" ∈ args),
     from_option Some p (last (filter (λ a, a ≠ "-l") args))).
Proof.
  revert d p. induction args as [|a args IH]; intros d p; simpl.
  { by rewrite orb_false_r. }
  destruct (String.eqb_spec a "-l") as [->|Hne]; rewrite IH.
  - rewrite filter_cons_False by (intros H; by apply H).
    rewrite (bool_decide_eq_true_2 ("-l" ∈ "-l" :: args)) by left.
    by rewrite !orb_true_r.
  - rewrite filter_cons_True by done. f_equal.
    + f_equal. apply bool_decide_ext. rewrite elem_of_cons. intuition congruence.
    + rewrite last_cons. by destruct (last _).
Qed.

Lemma ls_scan_spec args :
  ls_scan args
  = (bool_decide ("-l" ∈ args), last (filter (λ a, a ≠ "-l") args)).
Proof.
  unfold ls_scan. rewrite ls_scan_from. simpl. by destruct (last _).
Qed.

Lemma ls_scan_read args : ls_scan (ls_read args) = ls_scan args.
Proof.
  rewrite (ls_scan_spec args). unfold ls_read.
  destruct (last (filter _ args)) as [s|] eqn:Hlast.
  - assert (s ≠ "-l") as Hs.
    { apply last_Some_elem_of in Hlast.
      by apply list_elem_of_filter in Hlast as [? _]. }
    case_bool_decide; unfold ls_scan; simpl;
      by destruct (String.eqb_spec s "-l").
  - by case_bool_decide.
Qed.

(** C10: [ls] takes any number of arguments.  What it does is the
    listing of one target, the last token that is not ["-l"] (the
    working directory when there is none), detailed exactly when ["-l"]
    occurs among the tokens, wherever; so it does on any arguments what it
    does on the flag (when present) followed by that last token (when
    any).  No [ValueError] comes of it, the tokens being free of NUL
    (which [resolve] refuses) and, for the detailed listing, the
    modification times being ones [datetime] takes. *)
Theorem ls_any_arguments args m :
  ls args m = ls_of (bool_decide ("-l" ∈ args)) (ls_target (pwd m) args) m
  ∧ ls_scan args
    = (bool_decide ("-l" ∈ args), last (filter (λ a, a ≠ "-l") args))
  ∧ ls args m = ls (ls_read args) m
  ∧ (Forall (λ a, nul_free a = true) args →
     ("-l" ∈ args → times_ok (root m) = true) →
     ∀ e m', ls args m = (Raise e, m') → exn_cls e ≠ ValueError).
Proof.
  split; [|split; [|split]].
  - unfold ls, ls_of. rewrite ls_scan_spec.
    unfold bind at 1. unfold gets at 1.
    assert (match last (filter (λ a, a ≠ "-l") args) with
            | Some s =>
                if String.eqb s EmptyString then pwd m else joinpath (pwd m) s
            | None => pwd m
            end = ls_target (pwd m) args) as ->; [|done].
    unfold ls_target. destruct (last _) as [s|]; [|done].
    destruct (String.eqb_spec s EmptyString) as [->|]; [|done].
    unfold joinpath; simpl. by rewrite app_nil_r.
  - apply ls_scan_spec.
  - unfold ls. by rewrite ls_scan_read.
  - intros _ _ e m'.
    assert (raises (λ e, exn_cls e ≠ ValueError) (ls args)) as H; [|apply H].
    unfold ls. repeat raises_step; try done;
      by match goal with e0 : errno |- _ => destruct e0 end.
Qed.

(** ** [rm]: the guard *)

Lemma resolve_ok m p q : realpath (root m) p = (q, true) → resolve p m = (Ok q, m).
Proof.
  intros H. pose proof (realpath_resolved _ _ _ H) as Hq.
  unfold resolve, bind, gets. rewrite H. cbn [fst].
  rewrite (normpath_resolved _ _ Hq), stat_resolved by done.
  pose proof (walk_no_loop (root m) q).
  by destruct (walk (root m) q) as [[]|].
Qed.

Lemma strip_r_rm_args r arg :
  (r = false → arg ≠ "-r") → strip_r (rm_args r arg) = (r, [arg]).
Proof.
  intros H. destruct r; [done|]. unfold strip_r, rm_args.
  destruct (String.eqb_spec arg "-r"); [by destruct H|done].
Qed.

Lemma rm_root_guard m r arg :
  (r = false → arg ≠ "-r") →
  realpath (root m) (joinpath (pwd m) arg) = ([], true) →
  rm (rm_args r arg) m
  = (Raise (Exn PermissionError "cannot remove root directory"), m).
Proof.
  intros Harg Hp. unfold rm. rewrite strip_r_rm_args by done.
  unfold bind at 1. unfold gets at 1.
  unfold bind at 1. by rewrite (resolve_ok _ _ _ Hp).
Qed.

(** C4: when the argument of [rm] resolves to the root, or to the parent
    of [self.pwd] (as a path, or as what that parent resolves to), [rm]
    raises [PermissionError] and touches nothing; nothing is asked of the
    tree, so the target need not exist.  In particular [rm /] raises it on
    every machine. *)
Theorem rm_guard m :
  rm ["/"] m = (Raise (Exn PermissionError "cannot remove root directory"), m)
  ∧ ∀ r arg p,
      (r = false → arg ≠ "-r") →
      realpath (root m) (joinpath (pwd m) arg) = (p, true) →
      p = [] ∨ p = parent (pwd m)
        ∨ realpath (root m) (parent (pwd m)) = (p, true) →
      ∃ msg, rm (rm_args r arg) m = (Raise (Exn PermissionError msg), m).
Proof.
  split.
  - apply (rm_root_guard m false "/"); [done|apply joinrealpath_nil].
  - intros r arg p Harg Hp Hguard. unfold rm.
    rewrite strip_r_rm_args by done.
    unfold bind at 1. unfold gets at 1.
    unfold bind at 1. rewrite (resolve_ok _ _ _ Hp).
    destruct (String.eqb (str p) "/") eqn:Hroot; [by eexists|].
    assert (realpath (root m) (parent (pwd m)) = (p, true)) as Hup.
    { destruct Hguard as [->|[->|H]]; [done| |done].
      by eapply realpath_idem. }
    unfold bind at 1. unfold gets at 1.
    unfold bind at 1. rewrite (resolve_ok _ _ _ Hup).
    rewrite bool_decide_eq_true_2 by done. by eexists.
Qed.

(** ** [ls]: the listing *)

Lemma ascii_compare_refl c : Ascii.compare c c = Eq.
Proof. unfold Ascii.compare. apply N.compare_refl. Qed.

Lemma string_compare_refl s : String.compare s s = Eq.
Proof. induction s as [|c s IH]; simpl; [done|]. by rewrite ascii_compare_refl. Qed.

Lemma string_compare_lt_trans a b c :
  String.compare a b = Lt → String.compare b c = Lt → String.compare a c = Lt.
Proof.
  revert b c. induction a as [|x a IH]; intros [|y b] [|z c]; simpl; try done.
  unfold Ascii.compare.
  destruct (N.compare_spec (N_of_ascii x) (N_of_ascii y)) as [Hxy|Hxy|Hxy];
    destruct (N.compare_spec (N_of_ascii y) (N_of_ascii z)) as [Hyz|Hyz|Hyz];
    try done; intros H1 H2.
  - rewrite Hxy, Hyz, N.compare_refl. by eapply IH.
  - rewrite Hxy. by apply N.compare_lt_iff in Hyz as ->.
  - rewrite <- Hyz. by apply N.compare_lt_iff in Hxy as ->.
  - assert (N_of_ascii x < N_of_ascii z)%N as H by lia.
    by apply N.compare_lt_iff in H as ->.
Qed.

Lemma name_le_compare a b : name_le a b ↔ String.compare a b ≠ Gt.
Proof.
  unfold name_le, String.leb. by destruct (String.compare a b).
Qed.

#[local] Instance name_le_trans : Transitive name_le.
Proof.
  intros a b c. rewrite !name_le_compare. intros Hab Hbc.
  destruct (String.compare a b) eqn:E1; [| |done].
  - by apply String.compare_eq_iff in E1 as ->.
  - destruct (String.compare b c) eqn:E2; [| |done].
    + apply String.compare_eq_iff in E2 as <-. by rewrite E1.
    + by rewrite (string_compare_lt_trans a b c).
Qed.

#[local] Instance path_leb_total : Total (λ p q : path, Is_true (path_leb p q)).
Proof.
  intros p. induction p as [|a p IH]; intros [|b q]; simpl;
    [by left..|by right|].
  rewrite (String.compare_antisym a b).
  destruct (String.compare b a); simpl; [apply IH|by right|by left].
Qed.

(** Among the children of one directory, the order of paths is the order
    of names. *)
Lemma path_leb_siblings p a b : path_leb (p ++ [a]) (p ++ [b]) → name_le a b.
Proof.
  induction p as [|c p IH]; simpl.
  - rewrite name_le_compare. by destruct (String.compare a b).
  - by rewrite string_compare_refl.
Qed.

Lemma name_snoc p n : name (p ++ [n]) = n.
Proof. apply last_last. Qed.

Lemma Sorted_siblings p (items : list path) :
  Forall (λ x, ∃ n, x = p ++ [n]) items →
  Sorted (λ p q : path, Is_true (path_leb p q)) items →
  Sorted name_le (map name items).
Proof.
  intros Hall Hs. induction Hs as [|x items Hs IH Hhd]; simpl; [constructor|].
  apply Forall_cons in Hall as [[a ->] Hall]. constructor; [by apply IH|].
  destruct Hhd as [|y items Hxy]; simpl; constructor.
  apply Forall_cons in Hall as [[b ->] _].
  rewrite !name_snoc. by eapply path_leb_siblings.
Qed.

(** One line of output per [print]. *)
Lemma printed_lines names :
  printed (map Out_line names)
  = String.concat EmptyString
      (map (λ n, n +:+ String "010" EmptyString) names).
Proof.
  unfold printed. f_equal. induction names as [|n names IH]; [done|].
  simpl. by f_equal.
Qed.

Lemma emit_nil m : emit [] m = m.
Proof. destruct m. unfold emit; simpl. by rewrite app_nil_r. Qed.

Lemma for_each_print {A} (g : A → string) xs m :
  for_each xs (λ x, print (g x)) m = (Ok tt, emit (map (λ x, Out_line (g x)) xs) m).
Proof.
  revert m. induction xs as [|x xs IH]; intros m; simpl.
  - by rewrite emit_nil.
  - unfold bind, print at 1, modify. rewrite IH. by rewrite emit_emit.
Qed.

(** C7: without ["-l"], on a target that resolves to a directory, [ls]
    returns normally and prints one line per entry of that directory and
    nothing else: the names of the entries, in code-point order. *)
Theorem ls_prints_sorted_names args m p i sz es :
  "-l" ∉ args →
  realpath (root m) (ls_target (pwd m) args) = (p, true) →
  stat (root m) p = inr (Dir i sz es) →
  ∃ names,
    ls args m = (Ok tt, emit (map Out_line names) m)
    ∧ names ≡ₚ map fst es
    ∧ StronglySorted name_le names.
Proof.
  intros Hflag Hp Hdir.
  set (items := map (λ e : string * node, p ++ [fst e]) es).
  exists (map name (sorted items)). split; [|split].
  - unfold ls. rewrite ls_scan_spec, bool_decide_eq_false_2 by done.
    unfold bind at 1. unfold gets at 1.
    assert (match last (filter (λ a, a ≠ "-l") args) with
            | Some s => if String.eqb s EmptyString then pwd m else joinpath (pwd m) s
            | None => pwd m
            end = ls_target (pwd m) args) as ->.
    { unfold ls_target. destruct (last _) as [s|]; [|done].
      destruct (String.eqb_spec s EmptyString) as [->|]; [|done].
      unfold joinpath; simpl. by rewrite app_nil_r. }
    unfold bind at 1. rewrite (resolve_ok _ _ _ Hp).
    unfold bind at 1, exists_ at 1, bind at 1, gets at 1, ret at 1.
    rewrite Hdir. cbn [negb].
    unfold bind at 1, is_dir at 1, bind at 1, gets at 1, ret at 1.
    rewrite Hdir. cbn [negb].
    unfold bind at 1, iterdir at 1, bind at 1, gets at 1.
    rewrite Hdir. unfold ret at 1.
    rewrite (for_each_print name). by rewrite map_map.
  - unfold sorted. rewrite merge_sort_Permutation. unfold items.
    rewrite map_map. erewrite map_ext; [done|].
    intros [n c]; simpl. apply name_snoc.
  - apply Sorted_StronglySorted; [apply name_le_trans|].
    apply (Sorted_siblings p).
    + unfold sorted. rewrite merge_sort_Permutation. unfold items.
      apply Forall_forall. intros x Hx%list_elem_of_In.
      apply in_map_iff in Hx as (e & <- & _). by eexists.
    + unfold sorted. apply (Sorted_merge_sort _).
Qed.

(** ** [cd]: there and back *)

Lemma split_on_slash_free s : slash_free s = true → split_on "/" s = [s].
Proof.
  induction s as [|c s IH]; simpl; [done|].
  intros [Hc Hs]%andb_true_iff. apply negb_true_iff in Hc.
  by rewrite Hc, IH.
Qed.

Lemma parse_filename d : filename d → parse d = Parsed false [d].
Proof.
  intros [(Hne & Hdot & _) Hs]. unfold parse.
  rewrite split_on_slash_free by done. f_equal.
  - destruct d as [|c d]; [done|]. cbn [slash_free] in Hs.
    apply andb_true_iff in Hs as [Hc _]. apply negb_true_iff in Hc.
    cbn [String.prefix]. destruct (ascii_dec "/" c) as [<-|]; [|done].
    by rewrite Ascii.eqb_refl in Hc.
  - simpl. unfold kept.
    by destruct (String.eqb_spec d EmptyString), (String.eqb_spec d ".").
Qed.

Lemma joinpath_filename cwd d : filename d → joinpath cwd d = cwd ++ [d].
Proof. intros H. unfold joinpath. by rewrite parse_filename. Qed.

(** Below anything but a directory there is nothing. *)
Lemma walk_below t p k c :
  k ≠ [] → walk t (p ++ k) = inr c → ∃ i sz es, walk t p = inr (Dir i sz es).
Proof.
  intros Hk. rewrite walk_app. destruct (walk t p) as [e|[| i sz es|]]; try done.
  - by destruct k.
  - by eexists _, _, _.
  - by destruct k.
Qed.

Lemma set_pwd_back m p : set_pwd (pwd m) (set_pwd p m) = m.
Proof. by destruct m. Qed.

Lemma exists_ok m p c : stat (root m) p = inr c → exists_ p m = (Ok true, m).
Proof. unfold exists_, bind, gets, ret. by intros ->. Qed.

Lemma is_dir_ok m p i sz es :
  stat (root m) p = inr (Dir i sz es) → is_dir p m = (Ok true, m).
Proof. unfold is_dir, bind, gets, ret. by intros ->. Qed.

(** [cd] to a path that resolves to a directory. *)
Lemma cd_to m arg :
  cd [arg] m
  = bind (if String.eqb arg "~" then Path_home
          else if String.eqb arg ".."
               then bind (gets pwd) (λ self_pwd, ret (parent self_pwd))
               else bind (gets pwd) (λ self_pwd, ret (joinpath self_pwd arg)))
      (λ new_path,
         bind (resolve new_path) (λ new_path,
           bind (exists_ new_path) (λ e,
             if negb e then raise FileNotFoundError "No such file or directory"
             else bind (is_dir new_path) (λ d,
               if negb d then raise NotADirectoryError "Not a directory"
               else modify (set_pwd new_path))))) m.
Proof. done. Qed.

Lemma cd_enter m p q i sz es :
  realpath (root m) p = (q, true) →
  stat (root m) q = inr (Dir i sz es) →
  bind (resolve p) (λ new_path,
    bind (exists_ new_path) (λ e,
      if negb e then raise FileNotFoundError "No such file or directory"
      else bind (is_dir new_path) (λ d,
        if negb d then raise NotADirectoryError "Not a directory"
        else modify (set_pwd new_path)))) m
  = (Ok tt, set_pwd q m).
Proof.
  intros Hp Hq.
  rewrite (bind_ok _ _ _ _ _ (resolve_ok _ _ _ Hp)).
  rewrite (bind_ok _ _ _ _ _ (exists_ok _ _ _ Hq)). cbn [negb].
  by rewrite (bind_ok _ _ _ _ _ (is_dir_ok _ _ _ _ _ Hq)).
Qed.

(** C5, amended: from a working directory in resolved form, [cd] into a
    subdirectory (a directory proper, under a name other than ["~"]) makes
    that subdirectory the working directory, and [cd ..] from there brings
    back the machine as it was, working directory included. *)
Theorem cd_there_and_back m d i sz es :
  realpath (root m) (pwd m) = (pwd m, true) →
  filename d → d ≠ "~" →
  walk (root m) (pwd m ++ [d]) = inr (Dir i sz es) →
  cd [d] m = (Ok tt, set_pwd (pwd m ++ [d]) m)
  ∧ cd [".."] (set_pwd (pwd m ++ [d]) m) = (Ok tt, m).
Proof.
  intros Hpwd Hd Htilde Hsub.
  assert (resolved (root m) (pwd m)) as Hres by by eapply realpath_resolved.
  assert (resolved (root m) (pwd m ++ [d])) as Hres'.
  { apply resolved_snoc; [done|apply Hd|rewrite Hsub; simpl; tauto]. }
  split.
  - rewrite cd_to by done.
    destruct (String.eqb_spec d "~"); [done|].
    destruct Hd as [Hplain Hslash].
    destruct (plain_eqb _ Hplain) as [_ ->].
    unfold bind at 1. unfold bind at 1. unfold gets at 1, ret at 1.
    rewrite joinpath_filename by done.
    eapply cd_enter; [by apply realpath_fixed|].
    by rewrite stat_resolved.
  - rewrite cd_to by done. cbn [String.eqb Ascii.eqb Bool.eqb].
    unfold bind at 1. unfold bind at 1. unfold gets at 1, ret at 1.
    cbn [pwd set_pwd]. unfold parent. rewrite removelast_last.
    destruct (walk_below (root m) (pwd m) [d] _ ltac:(done) Hsub)
      as (j & sz' & es' & Hdir).
    erewrite cd_enter; [by rewrite set_pwd_back|exact Hpwd|].
    cbn [root set_pwd]. rewrite stat_resolved by done. exact Hdir.
Qed.

(** ** [rm -r]: the confirmation *)

Lemma join_nonempty sep n ps : n ≠ EmptyString → join sep (n :: ps) ≠ EmptyString.
Proof. intros Hn. destruct ps; simpl; [done|]. by destruct n. Qed.

Lemma str_not_root p : Forall plain p → p ≠ [] → String.eqb (str p) "/" = false.
Proof.
  intros Hp Hne. destruct p as [|n ps]; [done|].
  apply Forall_cons in Hp as [(Hn & _) _].
  apply String.eqb_neq. unfold str. intros [= H].
  by eapply join_nonempty.
Qed.

Lemma input_line prompt m answer rest :
  stdin m = answer :: rest →
  input prompt m = (Ok answer, set_stdin rest (emit [Out_text prompt] m)).
Proof.
  intros H. unfold input, bind, print_end, modify, gets; simpl. by rewrite H.
Qed.

(** The answers [rm -r] takes for a yes. *)
Lemma lower_is_y answer :
  String.eqb (lower answer) "y" = true ↔ answer = "y" ∨ answer = "Y".
Proof.
  rewrite String.eqb_eq. split.
  - destruct answer as [|c [|c' s]]; [done| |done].
    destruct c as [[] [] [] [] [] [] [] []]; vm_compute; intros [=]; auto.
  - by intros [-> | ->].
Qed.

(** C8: [rm -r] on a path that resolves to a directory, past the guard
    (the resolved path is neither the root nor what the parent of
    [self.pwd] resolves to), asks once and reads one line.  When the line
    lowercased is ["y"] the directory is removed with all it holds: no
    entry is left at its path, and what lies elsewhere in the tree is
    as before.  On any other line the tree is as it was, nothing is raised
    and [rm] returns. *)
Theorem rm_recursive_confirm m arg p up i sz es answer rest :
  realpath (root m) (joinpath (pwd m) arg) = (p, true) →
  p ≠ [] →
  realpath (root m) (parent (pwd m)) = (up, true) →
  p ≠ up →
  stat (root m) p = inr (Dir i sz es) →
  stdin m = answer :: rest →
  if String.eqb (lower answer) "y"
  then rm ["-r"; arg] m
       = (Ok tt, set_root (put (root m) p None) (asked p rest m))
       ∧ (∃ e, walk (put (root m) p None) p = inl e)
       ∧ ∀ q, ¬ p `prefix_of` q →
              same_kind (walk (root m) q) (walk (put (root m) p None) q)
  else rm ["-r"; arg] m = (Ok tt, asked p rest m).
Proof.
  intros Hp Hne Hup Hguard Hdir Hin.
  assert (resolved (root m) p) as Hres by by eapply realpath_resolved.
  assert (rm ["-r"; arg] m
          = bind (input (rm_prompt p)) (λ confirm,
              if negb (String.eqb (lower confirm) "y") then ret tt
              else shutil_rmtree p) m) as ->.
  { unfold rm. change (strip_r ["-r"; arg]) with (true, [arg]). cbv iota beta.
    unfold bind at 1. unfold gets at 1.
    rewrite (bind_ok _ _ _ _ _ (resolve_ok _ _ _ Hp)).
    rewrite str_not_root by (done || apply Hres).
    unfold bind at 1. unfold gets at 1.
    rewrite (bind_ok _ _ _ _ _ (resolve_ok _ _ _ Hup)).
    rewrite bool_decide_eq_false_2 by done.
    rewrite (bind_ok _ _ _ _ _ (exists_ok _ _ _ Hdir)). cbn [negb].
    rewrite (bind_ok _ _ _ _ _ (is_dir_ok _ _ _ _ _ Hdir)). cbn [negb andb].
    by rewrite (bind_ok _ _ _ _ _ (is_dir_ok _ _ _ _ _ Hdir)). }
  rewrite (bind_ok _ _ _ _ _ (input_line _ _ _ _ Hin)). fold (asked p rest m).
  destruct (String.eqb (lower answer) "y"); cbn [negb]; [|done].
  split; [|split; [by apply walk_put_none|intros q; apply walk_put_other]].
  unfold shutil_rmtree, bind, gets. cbn [asked root set_stdin emit].
  rewrite stat_resolved in Hdir by done. rewrite Hdir.
  by destruct p.
Qed.

(** ** [cp]: a file *)

Lemma same_kind_link r r' : same_kind r r' → is_link r' → is_link r.
Proof. destruct r as [|[]], r' as [|[]]; simpl; try done; by intros [= <-]. Qed.

Lemma snoc_parent (p : path) : p ≠ [] → p = parent p ++ [name p].
Proof. intros H. by apply app_removelast_last. Qed.

Lemma can_hold_not_above t tgt src i data :
  walk t src = inr (File i data) → can_hold t tgt → tgt ≠ src →
  ¬ tgt `prefix_of` src.
Proof.
  intros Hsrc Hhold Hne [k ->].
  destruct k as [|n k]; [by rewrite app_nil_r in Hne|].
  destruct (walk_below t tgt (n :: k) _ ltac:(done) Hsrc) as (j & sz & es & Hd).
  unfold can_hold in Hhold. by rewrite Hd in Hhold.
Qed.

Lemma can_hold_parent t tgt :
  tgt ≠ [] → can_hold t tgt → ∃ i sz es, walk t (parent tgt) = inr (Dir i sz es).
Proof.
  intros Hne Hhold. unfold can_hold in Hhold.
  destruct (walk t tgt) as [e|c] eqn:Hw; [done|].
  rewrite (snoc_parent tgt Hne) in Hw.
  by eapply walk_below in Hw.
Qed.

Lemma resolved_put t tgt o p :
  resolved t p →
  (∀ q n, (q ++ [n]) `prefix_of` p → tgt `prefix_of` (q ++ [n]) →
          ¬ is_link (walk (put t tgt o) (q ++ [n]))) →
  resolved (put t tgt o) p.
Proof.
  intros [Hpl Hln] Hat. split; [done|]. intros q n Hpre.
  destruct (decide (tgt `prefix_of` q ++ [n])) as [Hin|Hout]; [by apply Hat|].
  intros Hl. apply (Hln q n Hpre).
  eapply same_kind_link; [|exact Hl]. by apply walk_put_other.
Qed.

Lemma parent_not_below (p : path) : p ≠ [] → ¬ p `prefix_of` parent p.
Proof.
  intros Hne Hpre. apply prefix_length in Hpre.
  rewrite (snoc_parent p Hne) in Hpre at 1. rewrite length_app in Hpre.
  simpl in Hpre. lia.
Qed.

(** Writing a file [f] at [tgt], next to a file at [src]. *)
Lemma put_file t tgt src i data j d :
  resolved t src → walk t src = inr (File i data) →
  resolved t tgt → tgt ≠ src → can_hold t tgt →
  let t' := put t tgt (Some (File j d)) in
  walk t' tgt = inr (File j d) ∧ walk t' src = inr (File i data)
  ∧ resolved t' src ∧ resolved t' tgt ∧ can_hold t' tgt.
Proof.
  intros Hrs Hsrc Hrt Hne Hhold t'.
  pose proof (can_hold_not_above _ _ _ _ _ Hsrc Hhold Hne) as Habove.
  assert (tgt ≠ []) as Hnil.
  { intros ->. apply Habove, prefix_nil. }
  destruct (can_hold_parent _ _ Hnil Hhold) as (k & sz & es & Hpar).
  assert (walk t' tgt = inr (File j d)) as Htgt
    by by eapply walk_put_some.
  split; [done|]. split; [|split; [|split]].
  - pose proof (walk_put_other t tgt (Some (File j d)) src Habove) as Hk.
    rewrite Hsrc in Hk. simpl in Hk. by symmetry.
  - apply resolved_put; [done|]. intros q n Hq Hin. exfalso.
    apply Habove. by etrans.
  - apply resolved_put; [done|]. intros q n Hq Hin.
    assert (q ++ [n] = tgt) as ->.
    { apply prefix_length_eq; [done|]. by apply prefix_length. }
    fold t'. rewrite Htgt. simpl; tauto.
  - unfold can_hold. fold t'. by rewrite Htgt.
Qed.

Lemma set_root_set_root t t' m : set_root t' (set_root t m) = set_root t' m.
Proof. done. Qed.

Lemma perm_of_file_mode perm :
  N.land (N.lor S_IFREG (N.land perm 4095)) 4095 = N.land perm 4095.
Proof.
  rewrite N.land_lor_distr_l, <- N.land_assoc.
  change (N.land S_IFREG 4095) with 0%N. change (N.land 4095 4095) with 4095%N.
  apply N.lor_0_l.
Qed.


Lemma strip_r_cp_args r a0 a1 :
  (r = false → a0 ≠ "-r") → strip_r (cp_args r a0 a1) = (r, [a0; a1]).
Proof.
  intros H. destruct r; [done|]. unfold strip_r, cp_args.
  destruct (String.eqb_spec a0 "-r"); [by destruct H|done].
Qed.

Lemma is_dir_file m p i data :
  stat (root m) p = inr (File i data) → is_dir p m = (Ok false, m).
Proof. unfold is_dir, bind, gets, ret. by intros ->. Qed.


Lemma can_hold_not_link t q : can_hold t q → ¬ is_link (walk t q).
Proof. unfold can_hold. destruct (walk t q) as [|[]]; simpl; tauto. Qed.


End Handlers.

(** * Further properties *)

(** ** Tokens *)

Lemma split_ws_lstrip s : split_ws (lstrip s) = split_ws s.
Proof.
  induction s as [|c s IH]; [done|]. cbn [lstrip].
  destruct (is_space c) eqn:E; [|done]. rewrite IH. cbn [split_ws]. by rewrite E.
Qed.

Lemma rstrip_head s c r : rstrip s = String c r → ∃ s', s = String c s'.
Proof.
  destruct s as [|c0 s]; [done|]. cbn [rstrip].
  destruct (rstrip s); [destruct (is_space c0)|]; intros [= <- _]; by eexists.
Qed.

Lemma split_ws_rstrip s : split_ws (rstrip s) = split_ws s.
Proof.
  induction s as [|c s IH]; [done|]. cbn [rstrip].
  destruct (rstrip s) as [|c2 r2] eqn:Hr.
  - assert (split_ws s = []) as Hs by done.
    destruct (is_space c) eqn:E; cbn [split_ws]; rewrite E; [done|].
    destruct s as [|c' s'']; [done|]. rewrite Hs.
    by destruct (is_space c').
  - destruct (rstrip_head _ _ _ Hr) as [s' ->].
    cbn [split_ws] in *. destruct (is_space c); [done|].
    by rewrite IH.
Qed.

(** [strip] before [split] changes nothing. *)
Lemma parse_command_split line : parse_command line = split_ws line.
Proof. unfold parse_command, strip. by rewrite split_ws_rstrip, split_ws_lstrip. Qed.

Lemma split_ws_tokens s : Forall token (split_ws s).
Proof.
  induction s as [|c s IH]; [constructor|]. cbn [split_ws].
  destruct (is_space c) eqn:E; [done|].
  assert (token (String c EmptyString)) as Hc.
  { split; [done|]. simpl. by rewrite E. }
  destruct s as [|c' s']; [by constructor|].
  destruct (is_space c'); [by constructor|].
  destruct (split_ws (String c' s')) as [|w ws]; [by constructor|].
  apply Forall_cons in IH as [[_ Hw] Hws]. constructor; [|done].
  split; [done|]. simpl. by rewrite E, Hw.
Qed.

Lemma split_ws_blank s : split_ws s = [] ↔ blank s = true.
Proof.
  induction s as [|c s IH]; [done|]. cbn [split_ws blank].
  destruct (is_space c); [done|]. simpl. split; [|done].
  destruct s as [|c' s']; [done|]. destruct (is_space c'); [done|].
  by destruct (split_ws (String c' s')).
Qed.

Lemma split_ws_skip a s : blank a = true → split_ws (a +:+ s) = split_ws s.
Proof.
  induction a as [|c a IH]; [done|]. cbn [blank].
  intros [Hc Ha]%andb_true_iff. simpl. rewrite Hc. by apply IH.
Qed.

Lemma split_ws_cons c s :
  split_ws (String c s)
  = if is_space c then split_ws s
    else match s with
         | EmptyString => [String c EmptyString]
         | String c' _ =>
             if is_space c' then String c EmptyString :: split_ws s
             else match split_ws s with
                  | w :: ws => String c w :: ws
                  | [] => [String c EmptyString]
                  end
         end.
Proof. done. Qed.

Lemma split_ws_app_blank s b : blank b = true → split_ws (s +:+ b) = split_ws s.
Proof.
  intros Hb. induction s as [|c s IH].
  - simpl. by apply split_ws_blank.
  - change (String c s +:+ b) with (String c (s +:+ b)).
    rewrite !split_ws_cons, IH. destruct (is_space c); [done|].
    destruct s as [|c' s']; [|done].
    change (EmptyString +:+ b) with b. destruct b as [|c2 b]; [done|].
    cbn [blank] in Hb. by apply andb_true_iff in Hb as [-> _].
Qed.

(** X1: white space around a line does not change its tokens; in
    particular [strip] before [split] is without effect. *)
Theorem parse_command_padding before line after :
  blank before = true → blank after = true →
  parse_command (before +:+ line +:+ after) = parse_command line
  ∧ parse_command line = split_ws line.
Proof.
  intros Hb Ha. rewrite !parse_command_split. split; [|done].
  by rewrite split_ws_skip, split_ws_app_blank.
Qed.

(** X2: every token [parse_command] returns is non-empty and free of
    ASCII white space; a blank line has no token, and a line of ASCII
    characters that has no token is blank. *)
Theorem parse_command_tokens line :
  Forall token (parse_command line)
  ∧ (blank line = true → parse_command line = [])
  ∧ (ascii_text line = true → parse_command line = [] → blank line = true).
Proof.
  rewrite parse_command_split. split; [apply split_ws_tokens|].
  split; [apply split_ws_blank|]. intros _. apply split_ws_blank.
Qed.

Lemma split_ws_token w : token w → split_ws w = [w].
Proof.
  intros [Hne Hw]. induction w as [|c w IH]; [done|].
  cbn [space_free] in Hw. apply andb_true_iff in Hw as [Hc Hw].
  apply negb_true_iff in Hc. cbn [split_ws]. rewrite Hc.
  destruct w as [|c' w']; [done|].
  rewrite IH by done. cbn [space_free] in Hw.
  apply andb_true_iff in Hw as [Hc' _]. apply negb_true_iff in Hc'.
  by rewrite Hc'.
Qed.

Lemma split_ws_token_then w rest :
  token w → split_ws (w +:+ " " +:+ rest) = w :: split_ws rest.
Proof.
  intros [Hne Hw]. induction w as [|c w IH]; [done|].
  cbn [space_free] in Hw. apply andb_true_iff in Hw as [Hc Hw].
  apply negb_true_iff in Hc.
  change (String c w +:+ " " +:+ rest) with (String c (w +:+ " " +:+ rest)).
  cbn [split_ws]. rewrite Hc.
  destruct w as [|c' w'].
  - done.
  - rewrite IH by done.
    change (String c' w' +:+ " " +:+ rest)
      with (String c' (w' +:+ " " +:+ rest)).
    cbn [space_free] in Hw. apply andb_true_iff in Hw as [Hc' _].
    apply negb_true_iff in Hc'. by rewrite Hc'.
Qed.

(** X3: the line [execute_command] logs for a sequence of tokens parses
    back to that sequence, the tokens being of ASCII characters. *)
Theorem parse_command_join tokens :
  Forall token tokens →
  Forall (λ w, ascii_text w = true) tokens →
  parse_command (join " " tokens) = tokens.
Proof.
  intros Htokens _. revert Htokens. rewrite parse_command_split.
  induction tokens as [|w ws IH]; [done|]. intros [Hw Hws]%Forall_cons.
  destruct ws as [|w' ws]; [by apply split_ws_token|].
  change (join " " (w :: w' :: ws)) with (w +:+ " " +:+ join " " (w' :: ws)).
  rewrite split_ws_token_then by done. by rewrite IH.
Qed.

(** ** The loop *)

Lemma keeps_consumes {A} (c : Py A) : keeps stdin c → consumes c.
Proof. intros H m. by rewrite H. Qed.

Lemma consumes_bind {A C} (c : Py A) (k : A → Py C) :
  consumes c → (∀ a, consumes (k a)) → consumes (bind c k).
Proof.
  intros Hc Hk m. unfold bind. specialize (Hc m).
  destruct (c m) as [[a|e] m']; simpl in *; [|done].
  by etrans; [apply Hk|].
Qed.

Lemma consumes_try {A} (c : Py A) (h : exn → Py A) :
  consumes c → (∀ e, consumes (h e)) → consumes (try_except c h).
Proof.
  intros Hc Hh m. unfold try_except. specialize (Hc m).
  destruct (c m) as [[a|e] m']; simpl in *; [done|].
  by etrans; [apply Hh|].
Qed.

Lemma consumes_input prompt : consumes (input prompt).
Proof.
  intros m. unfold input, bind, print_end, modify, gets; simpl.
  destruct (stdin m) as [|x l] eqn:E; simpl; [by rewrite E|].
  by apply suffix_cons_r.
Qed.

Section Further.
Context {lib : Library}.

Lemma handlers_consume cmd handler args :
  lookup_command cmd commands = Some handler → consumes (handler args).
Proof.
  unfold commands; simpl. intros H.
  repeat (case_match; [injection H as <-|]); [..|done].
  - apply keeps_consumes. unfold ls. keeps_tac; done.
  - apply keeps_consumes. unfold cd. keeps_tac; done.
  - apply keeps_consumes. unfold cat. keeps_tac; done.
  - apply keeps_consumes. unfold cp. keeps_tac; done.
  - apply keeps_consumes. unfold mv. keeps_tac; done.
  - unfold rm.
    repeat first
      [ apply consumes_input
      | apply keeps_consumes; solve [keeps_tac; done]
      | apply consumes_bind; [|intros ?]
      | match goal with
        | |- consumes (if ?b then _ else _) => destruct b
        | |- consumes (match ?x with _ => _ end) => destruct x
        end ].
Qed.

Lemma execute_command_consumes tokens : consumes (execute_command tokens).
Proof.
  destruct tokens as [|cmd args]; [by apply keeps_consumes|].
  unfold execute_command. apply consumes_bind.
  { apply keeps_consumes. keeps_tac; done. }
  intros _. destruct (lookup_command cmd commands) as [h|] eqn:Hcmd.
  - apply consumes_try; [by eapply handlers_consume|].
    intros e. apply keeps_consumes. keeps_tac; done.
  - apply keeps_consumes. keeps_tac; done.
Qed.

Lemma input_eof prompt m :
  stdin m = [] →
  input prompt m
  = (Raise (Exn EOFError "EOF when reading a line"), emit [Out_text prompt] m).
Proof.
  intros H. unfold input, bind, print_end, modify, gets; simpl. by rewrite H.
Qed.

(** A turn at the end of input. *)
Lemma main_turn_eof m :
  stdin m = [] → main_turn m = (Ok false, emit [Out_text (main_prompt m)] m).
Proof.
  intros H. unfold main_turn, try_except.
  unfold bind at 1. unfold gets at 1.
  by rewrite (bind_raise _ _ _ _ _ (input_eof _ _ H)).
Qed.

(** A turn on a line. *)
Lemma main_turn_line m line rest :
  stdin m = line :: rest →
  main_turn m
  = if String.eqb (lower (strip line)) "exit"
    then (Ok false, prompted rest m)
    else (Ok true, snd (execute_command (parse_command line) (prompted rest m))).
Proof.
  intros H. unfold main_turn, try_except.
  unfold bind at 1. unfold gets at 1.
  rewrite (bind_ok _ _ _ _ _ (input_line _ _ _ _ H)).
  fold (main_prompt m). fold (prompted rest m).
  destruct (String.eqb (lower (strip line)) "exit"); [done|].
  cbv zeta. fold (parse_command line). unfold bind.
  by destruct (execute_command_returns (parse_command line) (prompted rest m))
    as [m' ->].
Qed.

Lemma main_loop_S n m :
  main_loop (S n) m
  = match main_turn m with
    | (Ok true, m') => main_loop n m'
    | (Ok false, m') => Some (Ok tt, m')
    | (Raise e, m') => Some (Raise e, m')
    end.
Proof. done. Qed.

(** With a turn more than there are lines the loop comes to its end, and
    further turns change nothing. *)
Lemma main_loop_enough n m :
  List.length (stdin m) < n →
  main_loop n m = main m ∧ ∃ m', main m = Some (Ok tt, m').
Proof.
  unfold main.
  remember (List.length (stdin m)) as k eqn:Hk. revert n m Hk.
  induction k as [k IH] using lt_wf_ind. intros n m Hk Hn.
  destruct n as [|n]; [lia|].
  destruct (stdin m) as [|line rest] eqn:Hin.
  - simpl in Hk. subst k. rewrite !main_loop_S.
    rewrite (main_turn_eof m Hin). split; [done|by eexists].
  - simpl in Hk. subst k.
    rewrite (main_loop_S n), (main_loop_S (S (List.length rest))).
    rewrite (main_turn_line m line rest Hin).
    destruct (String.eqb (lower (strip line)) "exit"); [split; [done|by eexists]|].
    set (m2 := snd (execute_command (parse_command line) (prompted rest m))).
    assert (List.length (stdin m2) <= List.length rest)%nat as Hle.
    { apply suffix_length.
      apply (execute_command_consumes (parse_command line) (prompted rest m)). }
    destruct (IH (List.length (stdin m2)) ltac:(lia) n m2 eq_refl ltac:(lia))
      as [Hn' Hex].
    destruct (IH (List.length (stdin m2)) ltac:(lia) (S (List.length rest)) m2
                eq_refl ltac:(lia)) as [Hk' _].
    rewrite Hn', Hk'. by split.
Qed.

(** X4: the loop always comes to an end and leaves normally, whatever the
    lines on standard input and whatever the commands do: one turn more
    than there are lines is enough, and more turns give the same. *)
Theorem main_returns m :
  ∃ m', main m = Some (Ok tt, m')
        ∧ ∀ k, main_loop (S (List.length (stdin m)) + k) m = Some (Ok tt, m').
Proof.
  destruct (main_loop_enough (S (List.length (stdin m))) m ltac:(lia))
    as [_ [m' Hm]].
  exists m'. split; [done|]. intros k.
  destruct (main_loop_enough (S (List.length (stdin m)) + k) m ltac:(lia))
    as [-> _]. done.
Qed.

(** X5: at the end of input the loop shows its prompt and stops; on a
    line that is [exit] once stripped and lowercased it stops as well,
    with nothing run and the lines after it unread. *)
Theorem main_stops m :
  (stdin m = [] → main m = Some (Ok tt, emit [Out_text (main_prompt m)] m))
  ∧ ∀ line rest,
      stdin m = line :: rest →
      lower (strip line) = "exit" →
      main m = Some (Ok tt, prompted rest m).
Proof.
  split.
  - intros H. unfold main. rewrite main_loop_S. by rewrite main_turn_eof.
  - intros line rest H Hexit. unfold main. rewrite main_loop_S.
    rewrite (main_turn_line m line rest H). by rewrite Hexit.
Qed.

Lemma main_step m line rest :
  stdin m = line :: rest →
  lower (strip line) ≠ "exit" →
  main m
  = main (snd (execute_command (parse_command line) (prompted rest m))).
Proof.
  intros H Hexit. unfold main at 1. rewrite main_loop_S.
  rewrite (main_turn_line m line rest H).
  destruct (String.eqb_spec (lower (strip line)) "exit"); [done|].
  apply main_loop_enough. rewrite H. simpl.
  pose proof (suffix_length _ _
    (execute_command_consumes (parse_command line) (prompted rest m))) as Hle.
  simpl in Hle. lia.
Qed.

(** X6: on any other line the loop shows its prompt, reads the line, hands
    its tokens to [execute_command] and goes on from the machine this
    leaves, whether the command failed or not. *)
Theorem main_next m line rest :
  stdin m = line :: rest →
  lower (strip line) ≠ "exit" →
  main m
  = main (snd (execute_command (parse_command line) (prompted rest m))).
Proof. apply main_step. Qed.

Lemma lstrip_blank s : blank s = true → lstrip s = EmptyString.
Proof.
  induction s as [|c s IH]; [done|]. cbn [blank lstrip].
  intros [-> Hs]%andb_true_iff. by apply IH.
Qed.

(** X7: a blank line only brings the prompt again: nothing is logged and
    nothing is run. *)
Theorem main_blank_line m line rest :
  stdin m = line :: rest →
  blank line = true →
  main m = main (prompted rest m).
Proof.
  intros H Hblank.
  rewrite (main_step m line rest H).
  - rewrite parse_command_split.
    by rewrite (proj2 (split_ws_blank line) Hblank).
  - unfold strip. by rewrite lstrip_blank.
Qed.

(** ** What the handlers leave alone *)

(** X8: [ls], [cd] and [cat] only read the tree: it is the same after
    them, whether they return or raise. *)
Theorem tree_read_only args m :
  root (snd (ls args m)) = root m
  ∧ root (snd (cd args m)) = root m
  ∧ root (snd (cat args m)) = root m.
Proof.
  repeat split.
  - assert (keeps root (ls args)) as H; [|apply H]. unfold ls. keeps_tac; done.
  - assert (keeps root (cd args)) as H; [|apply H]. unfold cd. keeps_tac; done.
  - assert (keeps root (cat args)) as H; [|apply H]. unfold cat. keeps_tac; done.
Qed.

(** X9: [cd], [cp] and [mv] are silent: they print nothing and log
    nothing, whether they return or raise. *)
Theorem silent_commands args m :
  trace (snd (cd args m)) = trace m
  ∧ trace (snd (cp args m)) = trace m
  ∧ trace (snd (mv args m)) = trace m.
Proof.
  repeat split.
  - assert (keeps trace (cd args)) as H; [|apply H]. unfold cd. keeps_tac; done.
  - assert (keeps trace (cp args)) as H; [|apply H]. unfold cp. keeps_tac; done.
  - assert (keeps trace (mv args)) as H; [|apply H]. unfold mv. keeps_tac; done.
Qed.

Lemma keeps_reads {A} (c : Py A) : keeps stdin c → reads_a_line_at_most c.
Proof. intros H m. left. apply H. Qed.

Lemma reads_bind_l {A C} (c : Py A) (k : A → Py C) :
  keeps stdin c → (∀ a, reads_a_line_at_most (k a)) →
  reads_a_line_at_most (bind c k).
Proof.
  intros Hc Hk m. unfold bind. specialize (Hc m).
  destruct (c m) as [[a|e] m']; simpl in *; [|by left].
  rewrite <- Hc. apply Hk.
Qed.

Lemma reads_bind_r {A C} (c : Py A) (k : A → Py C) :
  reads_a_line_at_most c → (∀ a, keeps stdin (k a)) →
  reads_a_line_at_most (bind c k).
Proof.
  intros Hc Hk m. unfold bind. specialize (Hc m).
  destruct (c m) as [[a|e] m']; simpl in *; [|done].
  pose proof (Hk a m') as Hk'. simpl in Hk'. rewrite Hk'. exact Hc.
Qed.

Lemma reads_input prompt : reads_a_line_at_most (input prompt).
Proof.
  intros m. unfold input, bind, print_end, modify, gets; simpl.
  destruct (stdin m) as [|x l] eqn:E; simpl; [by left|]. right. by exists x.
Qed.

(** X10: no handler but [rm] reads standard input, and [rm] reads one
    line at most. *)
Theorem standard_input_use args m :
  stdin (snd (ls args m)) = stdin m
  ∧ stdin (snd (cd args m)) = stdin m
  ∧ stdin (snd (cat args m)) = stdin m
  ∧ stdin (snd (cp args m)) = stdin m
  ∧ stdin (snd (mv args m)) = stdin m
  ∧ (stdin (snd (rm args m)) = stdin m
     ∨ ∃ answer, stdin m = answer :: stdin (snd (rm args m))).
Proof.
  repeat split.
  - assert (keeps stdin (ls args)) as H; [|apply H]. unfold ls. keeps_tac; done.
  - assert (keeps stdin (cd args)) as H; [|apply H]. unfold cd. keeps_tac; done.
  - assert (keeps stdin (cat args)) as H; [|apply H]. unfold cat. keeps_tac; done.
  - assert (keeps stdin (cp args)) as H; [|apply H]. unfold cp. keeps_tac; done.
  - assert (keeps stdin (mv args)) as H; [|apply H]. unfold mv. keeps_tac; done.
  - assert (reads_a_line_at_most (rm args)) as H; [|apply H]. unfold rm.
    repeat first
      [ apply reads_input
      | apply keeps_reads; solve [keeps_tac; done]
      | apply reads_bind_r; [apply reads_input|intros ?; solve [keeps_tac; done]]
      | apply reads_bind_l; [solve [keeps_tac; done]|intros ?]
      | match goal with
        | |- reads_a_line_at_most (if ?b then _ else _) => destruct b
        | |- reads_a_line_at_most (match ?x with _ => _ end) => destruct x
        end ].
Qed.

Lemma execute_command_grows tokens : grows (execute_command tokens).
Proof.
  destruct tokens as [|cmd args]; [by intros m0|].
  unfold execute_command. apply grows_bind; [apply grows_emit|intros _].
  destruct (lookup_command cmd commands) as [h|] eqn:Hcmd.
  - apply grows_try; [by eapply handlers_grow|]. intros e. repeat grows_step.
  - repeat grows_step.
Qed.

(** X11: the output is only ever added to: what was printed and logged
    before a command is still there after it, in the same order. *)
Theorem output_only_grows tokens m :
  trace m `prefix_of` trace (snd (execute_command tokens m)).
Proof. apply execute_command_grows. Qed.

(** ** What the handlers refuse *)

Lemma exists_no m p e : stat (root m) p = inl e → exists_ p m = (Ok false, m).
Proof. unfold exists_, bind, gets, ret. by intros ->. Qed.

Lemma ls_to args m :
  ls args m
  = bind (resolve (ls_target (pwd m) args)) (λ path,
      bind (exists_ path) (λ e,
        if negb e then raise FileNotFoundError "No such file or directory"
        else bind (is_dir path) (λ d,
          if negb d then raise NotADirectoryError "Not a directory"
          else bind (iterdir path) (λ items,
            for_each (sorted items) (λ item,
              if bool_decide ("-l" ∈ args) then
                bind (Path_stat item) (λ st,
                  print (filemode (st_mode st) +:+ " " +:+ pretty (st_uid st)
                           +:+ " " +:+ pretty (st_gid st) +:+ " "
                           +:+ pad_left 8 (pretty (st_size st)) +:+ " "
                           +:+ strftime_mtime (st_mtime st) +:+ " "
                           +:+ name item))
              else print (name item)))))) m.
Proof.
  unfold ls. rewrite ls_scan_spec.
  unfold bind at 1. unfold gets at 1.
  assert (match last (filter (λ a, a ≠ "-l") args) with
          | Some s =>
              if String.eqb s EmptyString then pwd m else joinpath (pwd m) s
          | None => pwd m
          end = ls_target (pwd m) args) as ->; [|done].
  unfold ls_target. destruct (last _) as [s|]; [|done].
  destruct (String.eqb_spec s EmptyString) as [->|]; [|done].
  unfold joinpath; simpl. by rewrite app_nil_r.
Qed.

Lemma cd_to_target m arg :
  cd [arg] m
  = bind (resolve (cd_target m arg)) (λ new_path,
      bind (exists_ new_path) (λ e,
        if negb e then raise FileNotFoundError "No such file or directory"
        else bind (is_dir new_path) (λ d,
          if negb d then raise NotADirectoryError "Not a directory"
          else modify (set_pwd new_path)))) m.
Proof.
  rewrite cd_to. unfold cd_target, bind at 1.
  destruct (String.eqb arg "~"); [done|]. by destruct (String.eqb arg "..").
Qed.

Lemma ls_missing m p e args :
  stat (root m) p = inl e →
  realpath (root m) (ls_target (pwd m) args) = (p, true) →
  ls args m = (Raise not_found, m).
Proof.
  intros Hno Hp. rewrite ls_to.
  rewrite (bind_ok _ _ _ _ _ (resolve_ok _ _ _ Hp)).
  by rewrite (bind_ok _ _ _ _ _ (exists_no _ _ _ Hno)).
Qed.

Lemma cd_missing m p e arg :
  stat (root m) p = inl e →
  realpath (root m) (cd_target m arg) = (p, true) →
  cd [arg] m = (Raise not_found, m).
Proof.
  intros Hno Hp. rewrite cd_to_target.
  rewrite (bind_ok _ _ _ _ _ (resolve_ok _ _ _ Hp)).
  by rewrite (bind_ok _ _ _ _ _ (exists_no _ _ _ Hno)).
Qed.

Lemma cat_missing m p e arg :
  stat (root m) p = inl e →
  realpath (root m) (joinpath (pwd m) arg) = (p, true) →
  cat [arg] m = (Raise not_found, m).
Proof.
  intros Hno Hp. unfold cat. unfold bind at 1. unfold gets at 1.
  rewrite (bind_ok _ _ _ _ _ (resolve_ok _ _ _ Hp)).
  by rewrite (bind_ok _ _ _ _ _ (exists_no _ _ _ Hno)).
Qed.

(** X12: [ls], [cd] and [cat] on a path that resolves to nothing raise
    [FileNotFoundError] with the message ["No such file or directory"]
    and leave the machine as it was; for [ls] this is so with and
    without ["-l"].  The arguments are free of NUL and the path is within
    the limits of the file system: [resolve] refuses the one, [exists]
    raises what [stat] says of the other. *)
Theorem missing_target_read m p e :
  stat (root m) p = inl e →
  within_limits p = true →
  (∀ args, Forall (λ a, nul_free a = true) args →
           realpath (root m) (ls_target (pwd m) args) = (p, true) →
           ls args m = (Raise not_found, m))
  ∧ (∀ arg, nul_free arg = true →
            realpath (root m) (cd_target m arg) = (p, true) →
            cd [arg] m = (Raise not_found, m))
  ∧ (∀ arg, nul_free arg = true →
            realpath (root m) (joinpath (pwd m) arg) = (p, true) →
            cat [arg] m = (Raise not_found, m)).
Proof.
  intros Hno _. repeat split; intros ? _.
  - by eapply ls_missing.
  - by eapply cd_missing.
  - by eapply cat_missing.
Qed.

Lemma rm_missing m p e r arg up :
  stat (root m) p = inl e →
  (r = false → arg ≠ "-r") →
  realpath (root m) (joinpath (pwd m) arg) = (p, true) →
  realpath (root m) (parent (pwd m)) = (up, true) →
  p ≠ up →
  rm (rm_args r arg) m = (Raise not_found, m).
Proof.
  intros Hno Hr Hp Hup Hne. unfold rm.
  rewrite strip_r_rm_args by done.
  unfold bind at 1. unfold gets at 1.
  rewrite (bind_ok _ _ _ _ _ (resolve_ok _ _ _ Hp)).
  assert (p ≠ []) as Hnil.
  { intros ->. by rewrite stat_resolved in Hno by apply resolved_nil. }
  rewrite str_not_root
    by (done || eapply realpath_resolved, Hp).
  unfold bind at 1. unfold gets at 1.
  rewrite (bind_ok _ _ _ _ _ (resolve_ok _ _ _ Hup)).
  rewrite bool_decide_eq_false_2 by done.
  by rewrite (bind_ok _ _ _ _ _ (exists_no _ _ _ Hno)).
Qed.

(** X13: [cp] and [mv] whose source resolves to nothing, the destination
    resolving without a loop, and [rm] past its guard on a path that
    resolves to nothing, raise [FileNotFoundError] and leave the machine as
    it was: nothing is copied, moved, asked or removed.  The arguments are
    free of NUL and the path is within the limits of the file system, as
    in X12. *)
Theorem missing_target_change m p e :
  stat (root m) p = inl e →
  within_limits p = true →
  (∀ r a0 a1 q,
      (r = false → a0 ≠ "-r") →
      nul_free a0 = true → nul_free a1 = true →
      realpath (root m) (joinpath (pwd m) a0) = (p, true) →
      realpath (root m) (joinpath (pwd m) a1) = (q, true) →
      cp (cp_args r a0 a1) m = (Raise not_found, m))
  ∧ (∀ a0 a1 q,
      nul_free a0 = true → nul_free a1 = true →
      realpath (root m) (joinpath (pwd m) a0) = (p, true) →
      realpath (root m) (joinpath (pwd m) a1) = (q, true) →
      mv [a0; a1] m = (Raise not_found, m))
  ∧ (∀ r arg up,
      (r = false → arg ≠ "-r") →
      nul_free arg = true →
      realpath (root m) (joinpath (pwd m) arg) = (p, true) →
      realpath (root m) (parent (pwd m)) = (up, true) →
      p ≠ up →
      rm (rm_args r arg) m = (Raise not_found, m)).
Proof.
  intros Hno _. repeat split.
  - intros r a0 a1 q Hr _ _ Hp Hq. unfold cp. rewrite strip_r_cp_args by done.
    unfold bind at 1. unfold gets at 1.
    rewrite (bind_ok _ _ _ _ _ (resolve_ok _ _ _ Hp)).
    rewrite (bind_ok _ _ _ _ _ (resolve_ok _ _ _ Hq)).
    by rewrite (bind_ok _ _ _ _ _ (exists_no _ _ _ Hno)).
  - intros a0 a1 q _ _ Hp Hq. unfold mv.
    unfold bind at 1. unfold gets at 1.
    rewrite (bind_ok _ _ _ _ _ (resolve_ok _ _ _ Hp)).
    rewrite (bind_ok _ _ _ _ _ (resolve_ok _ _ _ Hq)).
    by rewrite (bind_ok _ _ _ _ _ (exists_no _ _ _ Hno)).
  - intros r arg up Hr _. by eapply rm_missing.
Qed.

(** X14: [ls] and [cd] on a path that resolves to a regular file raise
    [NotADirectoryError] with the message ["Not a directory"] and leave
    the machine as it was. *)
Theorem not_a_directory_target m p i data :
  stat (root m) p = inr (File i data) →
  (∀ args, realpath (root m) (ls_target (pwd m) args) = (p, true) →
           ls args m = (Raise not_a_directory, m))
  ∧ (∀ arg, realpath (root m) (cd_target m arg) = (p, true) →
            cd [arg] m = (Raise not_a_directory, m)).
Proof.
  intros Hfile. split.
  - intros args Hp. rewrite ls_to.
    rewrite (bind_ok _ _ _ _ _ (resolve_ok _ _ _ Hp)).
    rewrite (bind_ok _ _ _ _ _ (exists_ok _ _ _ Hfile)). cbn [negb].
    by rewrite (bind_ok _ _ _ _ _ (is_dir_file _ _ _ _ Hfile)).
  - intros arg Hp. rewrite cd_to_target.
    rewrite (bind_ok _ _ _ _ _ (resolve_ok _ _ _ Hp)).
    rewrite (bind_ok _ _ _ _ _ (exists_ok _ _ _ Hfile)). cbn [negb].
    by rewrite (bind_ok _ _ _ _ _ (is_dir_file _ _ _ _ Hfile)).
Qed.

(** X15: on a path that resolves to a directory [cat] raises
    [IsADirectoryError] (["Is a directory"]), and so do [cp] and [rm]
    without ["-r"] (["omit -r for directories"]); the machine is as it
    was: [cp] copies nothing, [rm] asks nothing and removes nothing. *)
Theorem is_a_directory_target m p i sz es :
  stat (root m) p = inr (Dir i sz es) →
  (∀ arg, realpath (root m) (joinpath (pwd m) arg) = (p, true) →
          cat [arg] m = (Raise (Exn IsADirectoryError "Is a directory"), m))
  ∧ (∀ a0 a1 q,
       a0 ≠ "-r" →
       realpath (root m) (joinpath (pwd m) a0) = (p, true) →
       realpath (root m) (joinpath (pwd m) a1) = (q, true) →
       cp [a0; a1] m
       = (Raise (Exn IsADirectoryError "omit -r for directories"), m))
  ∧ (∀ arg up,
       arg ≠ "-r" →
       realpath (root m) (joinpath (pwd m) arg) = (p, true) →
       p ≠ [] →
       realpath (root m) (parent (pwd m)) = (up, true) →
       p ≠ up →
       rm [arg] m
       = (Raise (Exn IsADirectoryError "omit -r for directories"), m)).
Proof.
  intros Hdir. repeat split.
  - intros arg Hp. unfold cat. unfold bind at 1. unfold gets at 1.
    rewrite (bind_ok _ _ _ _ _ (resolve_ok _ _ _ Hp)).
    rewrite (bind_ok _ _ _ _ _ (exists_ok _ _ _ Hdir)). cbn [negb].
    by rewrite (bind_ok _ _ _ _ _ (is_dir_ok _ _ _ _ _ Hdir)).
  - intros a0 a1 q Ha Hp Hq. unfold cp.
    change [a0; a1] with (cp_args false a0 a1).
    rewrite (strip_r_cp_args false a0 a1) by done.
    unfold bind at 1. unfold gets at 1.
    rewrite (bind_ok _ _ _ _ _ (resolve_ok _ _ _ Hp)).
    rewrite (bind_ok _ _ _ _ _ (resolve_ok _ _ _ Hq)).
    rewrite (bind_ok _ _ _ _ _ (exists_ok _ _ _ Hdir)). cbn [negb].
    by rewrite (bind_ok _ _ _ _ _ (is_dir_ok _ _ _ _ _ Hdir)).
  - intros arg up Ha Hp Hnil Hup Hne. unfold rm.
    change [arg] with (rm_args false arg).
    rewrite (strip_r_rm_args false arg) by done.
    unfold bind at 1. unfold gets at 1.
    rewrite (bind_ok _ _ _ _ _ (resolve_ok _ _ _ Hp)).
    rewrite str_not_root by (done || eapply realpath_resolved, Hp).
    unfold bind at 1. unfold gets at 1.
    rewrite (bind_ok _ _ _ _ _ (resolve_ok _ _ _ Hup)).
    rewrite bool_decide_eq_false_2 by done.
    rewrite (bind_ok _ _ _ _ _ (exists_ok _ _ _ Hdir)). cbn [negb].
    by rewrite (bind_ok _ _ _ _ _ (is_dir_ok _ _ _ _ _ Hdir)).
Qed.

(** ** The number of arguments *)

(** X16: [cd] and [cat] given anything but one argument, and [rm] given
    anything but one argument once a leading ["-r"] is taken off, raise
    [ValueError] with their message and leave the machine as it was. *)
Theorem one_argument_or_value_error args m :
  (List.length args ≠ 1 →
     cd args m = (Raise (Exn ValueError "cd takes exactly one argument"), m)
     ∧ cat args m
       = (Raise (Exn ValueError "cat takes exactly one argument"), m))
  ∧ (List.length (snd (strip_r args)) ≠ 1 →
     rm args m = (Raise (Exn ValueError "rm takes exactly one argument"), m)).
Proof.
  repeat split.
  - by destruct args as [|? [|? ?]].
  - by destruct args as [|? [|? ?]].
  - unfold rm. destruct (strip_r args) as [r [|? [|? ?]]]; simpl; done.
Qed.

(** X17: [cp] and [mv] raise [ValueError] when two arguments are not what
    they are given ([cp]: once a leading ["-r"] is taken off), and the
    machine is as it was. *)
Theorem two_arguments_or_value_error args m :
  (List.length (snd (strip_r args)) ≠ 2 →
     cp args m
     = (Raise (Exn ValueError "cp requires source and destination"), m))
  ∧ (List.length args ≠ 2 →
     mv args m
     = (Raise (Exn ValueError "mv requires source and destination"), m)).
Proof.
  split.
  - unfold cp. by destruct (strip_r args) as [r [|? [|? [|? ?]]]].
  - by destruct args as [|? [|? [|? ?]]].
Qed.

(** ** What the handlers do *)

Lemma string_app_nil_r (s : string) : s +:+ EmptyString = s.
Proof.
  induction s as [|c s IH]; [done|].
  change (String c s +:+ EmptyString) with (String c (s +:+ EmptyString)).
  by rewrite IH.
Qed.

Lemma string_app_assoc (a b c : string) : a +:+ (b +:+ c) = (a +:+ b) +:+ c.
Proof.
  induction a as [|ch a IH]; [done|].
  change (String ch a +:+ (b +:+ c)) with (String ch (a +:+ (b +:+ c))).
  change ((String ch a +:+ b) +:+ c) with (String ch ((a +:+ b) +:+ c)).
  by rewrite IH.
Qed.

Lemma concat_empty_cons x xs :
  String.concat EmptyString (x :: xs) = x +:+ String.concat EmptyString xs.
Proof. destruct xs; simpl; [by rewrite string_app_nil_r|done]. Qed.

Lemma printed_app tr tr' : printed (tr ++ tr') = printed tr +:+ printed tr'.
Proof.
  unfold printed. rewrite omap_app.
  generalize (omap
    (λ ev, match ev with
           | Out_line l => Some (l +:+ String "010" EmptyString)
           | Out_text t => Some t
           | Log _ => None
           end) tr) as l.
  generalize (omap
    (λ ev, match ev with
           | Out_line l => Some (l +:+ String "010" EmptyString)
           | Out_text t => Some t
           | Log _ => None
           end) tr') as l'.
  intros l' l. induction l as [|x l IH]; [done|].
  change ((x :: l) ++ l') with (x :: (l ++ l')).
  by rewrite !concat_empty_cons, IH, string_app_assoc.
Qed.

Lemma read_bytes_ok m p i data :
  stat (root m) p = inr (File i data) → read_bytes p m = (Ok data, m).
Proof. unfold read_bytes, bind, gets. by intros ->. Qed.

Lemma read_text_ok m p i data text :
  stat (root m) p = inr (File i data) → decode data = inr text →
  read_text p m = (Ok (universal_newlines text), m).
Proof.
  intros Hfile Htext. unfold read_text.
  rewrite (bind_ok _ _ _ _ _ (read_bytes_ok _ _ _ _ Hfile)). by rewrite Htext.
Qed.

Lemma cat_file m arg p i data text :
  realpath (root m) (joinpath (pwd m) arg) = (p, true) →
  stat (root m) p = inr (File i data) →
  decode data = inr text →
  cat [arg] m = (Ok tt, emit [Out_text (universal_newlines text)] m).
Proof.
  intros Hp Hfile Htext. unfold cat. unfold bind at 1. unfold gets at 1.
  rewrite (bind_ok _ _ _ _ _ (resolve_ok _ _ _ Hp)).
  rewrite (bind_ok _ _ _ _ _ (exists_ok _ _ _ Hfile)). cbn [negb].
  rewrite (bind_ok _ _ _ _ _ (is_dir_file _ _ _ _ Hfile)).
  by rewrite (bind_ok _ _ _ _ _ (read_text_ok _ _ _ _ _ Hfile Htext)).
Qed.

Lemma universal_newlines_none s :
  has_char "013" s = false → universal_newlines s = s.
Proof.
  induction s as [|c s IH]; [done|]. cbn [has_char universal_newlines].
  intros [Hc Hs]%orb_false_iff. rewrite Ascii.eqb_sym, Hc. by rewrite IH.
Qed.

(** X18: [cat] on a path that resolves to a regular file reads it as
    text: when the content decodes, the text goes to standard output with
    its line ends translated (a carriage return, with the line feed after
    it if any, becomes a line feed), so as it is when it holds no carriage
    return; no line end is added and nothing else changes.  When the
    content does not decode, [cat] raises the [UnicodeDecodeError] of the
    codec and prints nothing. *)
Theorem cat_prints_content m arg p i data :
  nul_free arg = true →
  realpath (root m) (joinpath (pwd m) arg) = (p, true) →
  stat (root m) p = inr (File i data) →
  (∀ text, decode data = inr text →
     cat [arg] m = (Ok tt, emit [Out_text (universal_newlines text)] m)
     ∧ printed (trace (emit [Out_text (universal_newlines text)] m))
       = printed (trace m) +:+ universal_newlines text
     ∧ (has_char "013" text = false → universal_newlines text = text))
  ∧ (∀ msg, decode data = inl msg →
       cat [arg] m = (Raise (Exn UnicodeDecodeError msg), m)).
Proof.
  intros _ Hp Hfile. split.
  - intros text Htext. split; [by eapply cat_file|]. split.
    + cbn [trace emit]. by rewrite printed_app.
    + apply universal_newlines_none.
  - intros msg Hmsg. unfold cat. unfold bind at 1. unfold gets at 1.
    rewrite (bind_ok _ _ _ _ _ (resolve_ok _ _ _ Hp)).
    rewrite (bind_ok _ _ _ _ _ (exists_ok _ _ _ Hfile)). cbn [negb].
    rewrite (bind_ok _ _ _ _ _ (is_dir_file _ _ _ _ Hfile)).
    unfold read_text. unfold bind at 1.
    rewrite (bind_ok _ _ _ _ _ (read_bytes_ok _ _ _ _ Hfile)).
    by rewrite Hmsg.
Qed.

(** X19: [cd ~] makes the resolved home directory the working directory
    whatever the working directory was, and changes nothing else. *)
Theorem cd_home m h i sz es :
  realpath (root m) (home m) = (h, true) →
  stat (root m) h = inr (Dir i sz es) →
  ∀ p, cd ["~"] (set_pwd p m) = (Ok tt, set_pwd h m).
Proof.
  intros Hh Hdir p. rewrite cd_to_target.
  change (cd_target (set_pwd p m) "~") with (home m).
  by erewrite cd_enter.
Qed.

(** X29: a [cd] whose path resolves without meeting a link loop, and
    that returns, leaves a working directory in resolved form that is a
    directory, and the rest of the machine as it was.  (Past a loop
    [resolve] may return a path through a link, and [cd] take it:
    [cd_past_a_loop] below.) *)
Theorem cd_sets_resolved m arg q m' :
  realpath (root m) (cd_target m arg) = (q, true) →
  cd [arg] m = (Ok tt, m') →
  m' = set_pwd q m
  ∧ realpath (root m') (pwd m') = (pwd m', true)
  ∧ ∃ i sz es, stat (root m') (pwd m') = inr (Dir i sz es).
Proof.
  intros Hq. rewrite cd_to_target.
  rewrite (bind_ok _ _ _ _ _ (resolve_ok _ _ _ Hq)).
  destruct (stat (root m) q) as [e|[| i sz es|]] eqn:Hst.
  - by rewrite (bind_ok _ _ _ _ _ (exists_no _ _ _ Hst)).
  - rewrite (bind_ok _ _ _ _ _ (exists_ok _ _ _ Hst)). cbn [negb].
    by rewrite (bind_ok _ _ _ _ _ (is_dir_file _ _ _ _ Hst)).
  - rewrite (bind_ok _ _ _ _ _ (exists_ok _ _ _ Hst)). cbn [negb].
    rewrite (bind_ok _ _ _ _ _ (is_dir_ok _ _ _ _ _ Hst)). cbn [negb].
    intros [= <-]. cbn [pwd root set_pwd]. repeat split.
    + by eapply realpath_idem.
    + by eexists _, _, _.
  - rewrite (bind_ok _ _ _ _ _ (exists_ok _ _ _ Hst)). cbn [negb].
    unfold bind at 1, is_dir, bind, gets, ret. by rewrite Hst.
Qed.

Lemma rm_file_run m r arg p up i data :
  (r = false → arg ≠ "-r") →
  realpath (root m) (joinpath (pwd m) arg) = (p, true) →
  p ≠ [] →
  realpath (root m) (parent (pwd m)) = (up, true) →
  p ≠ up →
  stat (root m) p = inr (File i data) →
  rm (rm_args r arg) m = (Ok tt, set_root (put (root m) p None) m).
Proof.
  intros Hr Hp Hnil Hup Hne Hfile.
  assert (resolved (root m) p) as Hres by by eapply realpath_resolved.
  assert (walk (root m) p = inr (File i data)) as Hwalk
    by by rewrite <- stat_resolved.
  unfold rm. rewrite strip_r_rm_args by done.
  unfold bind at 1. unfold gets at 1.
  rewrite (bind_ok _ _ _ _ _ (resolve_ok _ _ _ Hp)).
  rewrite str_not_root by (done || apply Hres).
  unfold bind at 1. unfold gets at 1.
  rewrite (bind_ok _ _ _ _ _ (resolve_ok _ _ _ Hup)).
  rewrite bool_decide_eq_false_2 by done.
  rewrite (bind_ok _ _ _ _ _ (exists_ok _ _ _ Hfile)). cbn [negb].
  rewrite (bind_ok _ _ _ _ _ (is_dir_file _ _ _ _ Hfile)). cbn [negb andb].
  rewrite (bind_ok _ _ _ _ _ (is_dir_file _ _ _ _ Hfile)).
  unfold os_remove, bind, gets. by rewrite Hwalk.
Qed.

Lemma same_kind_entry r r' : same_kind r r' → same_entry r r'.
Proof. by destruct r as [|[]], r' as [|[]]. Qed.

(** X20: [rm] on a path that resolves to a regular file, past the
    guard, removes it at once, with or without ["-r"]: nothing is asked
    or printed, no entry is left at the path, and elsewhere in the tree
    every path leads to the entry it led to, a directory to a directory
    (of which the attributes are not compared: the one that held the file
    has a new modification time). *)
Theorem rm_file m r arg p up i data :
  (r = false → arg ≠ "-r") →
  nul_free arg = true →
  realpath (root m) (joinpath (pwd m) arg) = (p, true) →
  p ≠ [] →
  realpath (root m) (parent (pwd m)) = (up, true) →
  p ≠ up →
  stat (root m) p = inr (File i data) →
  ∃ t', rm (rm_args r arg) m = (Ok tt, set_root t' m)
        ∧ (∃ e, walk t' p = inl e)
        ∧ ∀ q, ¬ p `prefix_of` q → same_entry (walk (root m) q) (walk t' q).
Proof.
  intros Hr _ Hp Hnil Hup Hne Hfile. exists (put (root m) p None).
  split; [by eapply rm_file_run|].
  split; [by apply walk_put_none|].
  intros q Hq. by apply same_kind_entry, walk_put_other.
Qed.

(** What [rm] does to the tree: nothing, or it unbinds one path below
    the root, and then it returns; at a directory this takes ["-r"]. *)
Lemma rm_outcome args m :
  root (snd (rm args m)) = root m
  ∨ ∃ p, fst (rm args m) = Ok tt
         ∧ p ≠ []
         ∧ root (snd (rm args m)) = put (root m) p None
         ∧ match walk (root m) p with
           | inr (Dir _ _ _) => fst (strip_r args) = true
           | inr _ => True
           | inl _ => False
           end.
Proof.
  unfold rm. destruct (strip_r args) as [r [|arg [|? ?]]]; try by left.
  cbn [fst].
  match goal with |- root (snd ?t) = _ ∨ _ => remember t as res eqn:Hrun end.
  assert (∀ x, resolve x m = (Ok (normpath (fst (realpath (root m) x))), m)
               ∨ ∃ e, resolve x m = (Raise e, m)) as Hres.
  { intros x. unfold resolve, bind, gets.
    destruct (stat (root m) _) as [[]|]; (by left) || (right; by eexists). }
  unfold bind at 1 in Hrun. unfold gets at 1 in Hrun.
  destruct (Hres (joinpath (pwd m) arg)) as [Hp|[e Hp]];
    [|rewrite (bind_raise _ _ _ _ _ Hp) in Hrun; subst res; by left].
  rewrite (bind_ok _ _ _ _ _ Hp) in Hrun.
  set (p := normpath (fst (realpath (root m) (joinpath (pwd m) arg)))) in *.
  destruct (String.eqb (str p) "/") eqn:Hstr; [subst res; by left|].
  assert (p ≠ []) as Hnil by by intros Hp0; rewrite Hp0 in Hstr.
  unfold bind at 1 in Hrun. unfold gets at 1 in Hrun.
  destruct (Hres (parent (pwd m))) as [Hup|[e Hup]];
    [|rewrite (bind_raise _ _ _ _ _ Hup) in Hrun; subst res; by left].
  rewrite (bind_ok _ _ _ _ _ Hup) in Hrun.
  destruct (bool_decide (p = _)); [subst res; by left|].
  unfold bind, gets, exists_, is_dir, input, print_end, modify,
    os_remove, shutil_rmtree, os_error, raise, ret, bind, gets in Hrun.
  cbn [fst snd root pwd emit set_stdin stdin] in Hrun.
  destruct (stat (root m) p) as [e|n] eqn:Hstat;
    cbn [negb fst snd root pwd emit set_stdin stdin] in Hrun;
    [subst res; by left|].
  rewrite ?Hstat in Hrun.
  destruct n as [i data|i sz es|tg];
    cbn [negb andb fst snd root pwd emit set_stdin stdin] in Hrun;
    rewrite ?Hstat in Hrun.
  - destruct (walk (root m) p) as [e|[| |]] eqn:Hw; subst res; try by left.
    + right. exists p. by rewrite Hw.
    + right. exists p. by rewrite Hw.
  - destruct r; cbn [negb andb] in Hrun; [|subst res; by left].
    rewrite ?Hstat in Hrun.
    destruct (stdin m) as [|confirm rest]; [subst res; by left|].
    destruct (negb (String.eqb (lower confirm) "y")); [subst res; by left|].
    cbn [fst snd root pwd emit set_stdin stdin] in Hrun.
    destruct (walk (root m) p) as [e|[| |]] eqn:Hw; subst res; try by left.
    destruct p; [done|]. right. eexists. by rewrite Hw.
  - destruct (walk (root m) p) as [e|[| |]] eqn:Hw; subst res; try by left.
    + right. exists p. by rewrite Hw.
    + right. exists p. by rewrite Hw.
Qed.

(** X21: without ["-r"] in front, [rm] removes what it was asked to or
    nothing: when it raises, the tree is as it was.  (With ["-r"] the
    removal of a directory goes entry by entry, and what has gone when it
    fails stays gone.) *)
Theorem rm_raise_keeps_tree args m e :
  head args ≠ Some "-r" →
  fst (rm args m) = Raise e → root (snd (rm args m)) = root m.
Proof.
  intros _ Hraise.
  destruct (rm_outcome args m) as [H|(p & Hok & _)]; [done|].
  by rewrite Hok in Hraise.
Qed.

Lemma walk_through t p q c :
  walk t p = inr c → p `prefix_of` q → q ≠ p →
  (∀ i sz es, c ≠ Dir i sz es) → ∃ e, walk t q = inl e.
Proof.
  intros Hp [k ->] Hne Hc. rewrite walk_app, Hp.
  destruct k as [|n k]; [by rewrite app_nil_r in Hne|].
  destruct c as [| i sz es|]; simpl; try by eexists.
  by destruct (Hc i sz es).
Qed.

(** X22: without ["-r"] in front, [rm] removes no directory: where the
    tree had a directory it has one afterwards. *)
Theorem rm_keeps_directories args m q i sz es :
  head args ≠ Some "-r" →
  walk (root m) q = inr (Dir i sz es) →
  ∃ i' sz' es', walk (root (snd (rm args m))) q = inr (Dir i' sz' es').
Proof.
  intros Hflag Hq.
  assert (fst (strip_r args) = false) as Hr.
  { unfold strip_r. destruct args as [|a args]; [done|].
    destruct (String.eqb_spec a "-r") as [->|]; [by destruct Hflag|done]. }
  destruct (rm_outcome args m) as [->|(p & _ & Hnil & -> & Hp)];
    [by eexists _, _, _|].
  destruct (walk (root m) p) as [e|c] eqn:Hw; [done|].
  assert (∀ i sz es, c ≠ Dir i sz es) as Hc.
  { intros i0 sz0 es0 ->. by rewrite Hr in Hp. }
  destruct (decide (p `prefix_of` q)) as [Hpre|Hpre].
  - destruct (decide (q = p)) as [->|Hne].
    + rewrite Hw in Hq. injection Hq as ->. by destruct (Hc i sz es).
    + destruct (walk_through _ _ _ _ Hw Hpre Hne Hc) as [e He].
      by rewrite He in Hq.
  - pose proof (walk_put_other (root m) p None q Hpre) as Hk.
    rewrite Hq in Hk. unfold same_kind in Hk.
    destruct (walk (put (root m) p None) q) as [e'|[| i' sz' es'|]];
      try done.
    by eexists _, _, _.
Qed.

(** ** [ls]: the default target and the long format *)

(** X23: without a target [ls] lists the working directory: the same as
    on ["."], with and without ["-l"]. *)
Theorem ls_default_target m :
  ls [] m = ls ["."] m ∧ ls ["-l"] m = ls ["-l"; "."] m.
Proof.
  split; rewrite !ls_to.
  - change (ls_target (pwd m) ["."]) with (pwd m ++ []).
    by rewrite app_nil_r.
  - change (ls_target (pwd m) ["-l"; "."]) with (pwd m ++ []).
    by rewrite app_nil_r.
Qed.


(** A loop whose body raises at some item raises. *)
Lemma for_each_raises {A} (body : A → Py unit) xs m :
  (∀ x m', root m' = root m →
           (∃ m'', body x m' = (Ok tt, m'') ∧ root m'' = root m)
           ∨ ∃ e, body x m' = (Raise e, m')) →
  Exists (λ x, ∀ m', root m' = root m → ∃ e, body x m' = (Raise e, m')) xs →
  ∃ e m', for_each xs body m = (Raise e, m').
Proof.
  intros Hb Hex. revert m Hb Hex.
  induction xs as [|x xs IH]; intros m Hb Hex; [by inversion Hex|].
  simpl. unfold bind.
  apply Exists_cons in Hex as [Hx|Hxs].
  - destruct (Hx m eq_refl) as [e ->]. by eexists _, _.
  - destruct (Hb x m eq_refl) as [(m'' & -> & Hroot)|[e ->]];
      [|by eexists _, _].
    apply IH.
    + intros y m' Hm'. rewrite Hroot in Hm'.
      destruct (Hb y m' Hm') as [(m3 & ? & ?)|?]; [left|by right].
      exists m3. split; [done|congruence].
    + eapply Exists_impl; [exact Hxs|]. intros y Hy m' Hm'. apply Hy.
      congruence.
Qed.

Lemma ls_enter args m p i sz es :
  realpath (root m) (ls_target (pwd m) args) = (p, true) →
  stat (root m) p = inr (Dir i sz es) →
  ls args m
  = for_each (sorted (map (λ e : string * node, p ++ [fst e]) es)) (λ item,
      if bool_decide ("-l" ∈ args) then
        bind (Path_stat item) (λ st,
          print (filemode (st_mode st) +:+ " " +:+ pretty (st_uid st)
                   +:+ " " +:+ pretty (st_gid st) +:+ " "
                   +:+ pad_left 8 (pretty (st_size st)) +:+ " "
                   +:+ strftime_mtime (st_mtime st) +:+ " "
                   +:+ name item))
      else print (name item)) m.
Proof.
  intros Hp Hdir. rewrite ls_to.
  rewrite (bind_ok _ _ _ _ _ (resolve_ok _ _ _ Hp)).
  rewrite (bind_ok _ _ _ _ _ (exists_ok _ _ _ Hdir)). cbn [negb].
  rewrite (bind_ok _ _ _ _ _ (is_dir_ok _ _ _ _ _ Hdir)). cbn [negb].
  unfold bind at 1, iterdir at 1, bind at 1, gets at 1.
  by rewrite Hdir.
Qed.


(** X25: with ["-l"], on a directory that has an entry leading nowhere
    (a link whose target is missing, say), [ls] raises; without ["-l"]
    the same call returns normally. *)
Theorem ls_long_dangling args m p i sz es :
  "-l" ∈ args →
  realpath (root m) (ls_target (pwd m) args) = (p, true) →
  stat (root m) p = inr (Dir i sz es) →
  Exists (λ e, ∃ err, stat (root m) (p ++ [fst e]) = inl err) es →
  (∃ e m', ls args m = (Raise e, m'))
  ∧ ∃ m', ls (filter (λ a, a ≠ "-l") args) m = (Ok tt, m').
Proof.
  intros Hflag Hp Hdir Hes. split.
  - rewrite (ls_enter _ _ _ _ _ _ Hp Hdir).
    rewrite bool_decide_eq_true_2 by done.
    apply for_each_raises.
    + intros item m' Hroot. unfold Path_stat, bind, gets. rewrite Hroot.
      destruct (stat (root m) item) as [err|n].
      * right. by eexists.
      * left. eexists. split; [done|]. by rewrite <- Hroot.
    + apply Exists_exists in Hes as (e & He & err & Herr).
      apply Exists_exists. exists (p ++ [fst e]). split.
      * unfold sorted. rewrite merge_sort_Permutation.
        apply list_elem_of_fmap. by exists e.
      * intros m' Hroot. unfold Path_stat, bind, gets.
        rewrite Hroot, Herr. by eexists.
  - assert ("-l" ∉ filter (λ a, a ≠ "-l") args) as Hplain.
    { intros [H _]%list_elem_of_filter. by apply H. }
    assert (ls_target (pwd m) (filter (λ a, a ≠ "-l") args)
            = ls_target (pwd m) args) as Htarget.
    { unfold ls_target. f_equal.
      by rewrite list_filter_filter_l by tauto. }
    rewrite <- Htarget in Hp.
    rewrite (ls_enter _ _ _ _ _ _ Hp Hdir).
    rewrite bool_decide_eq_false_2 by done.
    rewrite (for_each_print name). by eexists.
Qed.

(** ** One command after another *)

(** A name of the working directory, as a path. *)
Lemma resolved_entry t cwd d :
  resolved t cwd → filename d → ¬ is_link (walk t (cwd ++ [d])) →
  joinpath cwd d = cwd ++ [d]
  ∧ resolved t (cwd ++ [d])
  ∧ realpath t (cwd ++ [d]) = (cwd ++ [d], true)
  ∧ realpath t (parent cwd) = (parent cwd, true)
  ∧ cwd ++ [d] ≠ parent cwd
  ∧ cwd ++ [d] ≠ [].
Proof.
  intros Hcwd Hd Hlink.
  assert (resolved t (cwd ++ [d])) as Hres
    by (apply resolved_snoc; [done|apply Hd|done]).
  split; [by apply joinpath_filename|]. split; [done|].
  split; [by apply realpath_fixed|].
  split; [by apply realpath_fixed, resolved_parent|].
  split; [|by destruct cwd].
  intros Heq. pose proof (prefix_length _ _ (removelast_prefix cwd)) as Hlen.
  unfold parent in Heq. rewrite <- Heq, length_app in Hlen. simpl in Hlen. lia.
Qed.

(** X26: once [rm] has removed a file of the working directory, the
    name leads nowhere: [cat] on it raises [FileNotFoundError], and so
    does a second [rm]. *)
Theorem rm_then_missing m d i data :
  resolved (root m) (pwd m) →
  filename d → d ≠ "-r" →
  walk (root m) (pwd m ++ [d]) = inr (File i data) →
  ∃ m', rm [d] m = (Ok tt, m')
        ∧ cat [d] m' = (Raise not_found, m')
        ∧ rm [d] m' = (Raise not_found, m').
Proof.
  intros Hcwd Hd Hr Hfile.
  set (p := pwd m ++ [d]) in *.
  destruct (resolved_entry (root m) (pwd m) d Hcwd Hd)
    as (Hjoin & Hres & Hp & Hup & Hne & Hnil).
  { fold p. rewrite Hfile. simpl; tauto. }
  fold p in Hjoin, Hres, Hp, Hne, Hnil.
  set (t' := put (root m) p None).
  exists (set_root t' m).
  assert (rm [d] m = (Ok tt, set_root t' m)) as Hrun.
  { change [d] with (rm_args false d).
    eapply rm_file_run; rewrite ?Hjoin, ?stat_resolved; done. }
  destruct (walk_put_none (root m) p Hnil) as [e He]. fold t' in He.
  assert (resolved t' (pwd m)) as Hcwd'.
  { apply resolved_put; [done|]. intros q n Hq Hin. exfalso.
    pose proof (prefix_length _ _ Hq) as H1.
    pose proof (prefix_length _ _ Hin) as H2.
    unfold p in H2. rewrite !length_app in *. simpl in *. lia. }
  destruct (resolved_entry t' (pwd m) d Hcwd' Hd)
    as (_ & Hres' & Hp' & Hup' & _ & _).
  { fold p. rewrite He. simpl; tauto. }
  fold p in Hres', Hp'.
  assert (stat (root (set_root t' m)) p = inl e) as Hno
    by (cbn [root set_root]; by rewrite stat_resolved).
  split; [done|]. split.
  - eapply cat_missing; [exact Hno|]. cbn [root pwd set_root].
    by rewrite Hjoin.
  - change [d] with (rm_args false d).
    eapply rm_missing; [exact Hno|done|..]; cbn [root pwd set_root];
      rewrite ?Hjoin; done.
Qed.

(** [copyfile] then [copymode], and what the destination then is. *)
Lemma copy_to_resolved m src tgt i data :
  resolved (root m) src → walk (root m) src = inr (File i data) →
  resolved (root m) tgt → tgt ≠ src → can_hold (root m) tgt →
  ∃ t' j,
    (∀ r, bind (copyfile src tgt r) (λ _, copymode src tgt) m
          = (Ok tt, set_root t' m))
    ∧ walk t' tgt = inr (File j data)
    ∧ resolved t' tgt.
Proof.
  intros Hrs Hsrc Hrt Hne Hhold.
  assert (∃ j1, write_bytes tgt data 420 m
                = (Ok tt, set_root (put (root m) tgt (Some (File j1 data))) m))
    as [j1 Hwrite].
  { unfold write_bytes, bind, gets, id. rewrite realpath_fixed by done.
    unfold can_hold in Hhold.
    destruct (walk (root m) tgt) as [e|[j0 old| |]] eqn:Hw; try done.
    - destruct Hhold as (k & sz & es & ->). by eexists.
    - by eexists. }
  destruct (put_file _ _ _ _ _ j1 data Hrs Hsrc Hrt Hne Hhold)
    as (Htgt1 & Hsrc1 & Hrs1 & Hrt1 & Hhold1).
  set (t1 := put (root m) tgt (Some (File j1 data))) in *.
  set (j2 := Inode (N.land (i_perm i) 4095) (i_uid j1) (i_gid j1) (i_mtime j1)).
  destruct (put_file _ _ _ _ _ j2 data Hrs1 Hsrc1 Hrt1 Hne Hhold1)
    as (Htgt2 & _ & _ & Hrt2 & _).
  exists (put t1 tgt (Some (File j2 data))), j2.
  split; [|done]. intros r.
  assert (samefile src tgt m = (Ok false, m)) as Hsame.
  { unfold samefile, bind, gets, ret. rewrite !stat_resolved by done.
    rewrite Hsrc. destruct (walk (root m) tgt); [done|].
    rewrite !realpath_fixed by done.
    rewrite bool_decide_eq_false_2; [done|]. by intros [= ->]. }
  unfold copyfile. unfold bind at 1. unfold bind at 1. rewrite Hsame.
  unfold bind at 1. rewrite (read_bytes_ok m src i data), Hwrite
    by by rewrite stat_resolved.
  unfold copymode, Path_stat, chmod, bind, gets, modify, ret.
  cbn [root set_root]. fold t1.
  rewrite stat_resolved, Hsrc1 by done. cbn [node_stat st_mode].
  rewrite realpath_fixed by done. cbn [root set_root]. rewrite Htgt1.
  rewrite perm_of_file_mode. by rewrite set_root_set_root.
Qed.

(** X27: what [cp] has copied, [cat] shows: after [cp a b] on a file
    [a] of the working directory and a name [b] there that is free or a
    file, [cat b] prints what [cat a] prints, the text of [a] with its
    line ends translated.  The content of [a] decodes; [b] is a name
    the file system takes: free of NUL, within its limits. *)
Theorem cp_then_cat m a b i data text :
  resolved (root m) (pwd m) →
  filename a → filename b → a ≠ "-r" → a ≠ b →
  nul_free b = true → within_limits (pwd m ++ [b]) = true →
  walk (root m) (pwd m ++ [a]) = inr (File i data) →
  can_hold (root m) (pwd m ++ [b]) →
  decode data = inr text →
  cat [a] m = (Ok tt, emit [Out_text (universal_newlines text)] m)
  ∧ ∃ m', cp [a; b] m = (Ok tt, m')
          ∧ cat [b] m'
            = (Ok tt, emit [Out_text (universal_newlines text)] m').
Proof.
  intros Hcwd Ha Hb Hr Hab _ _ Hfile Hhold Htext.
  set (src := pwd m ++ [a]) in *. set (tgt := pwd m ++ [b]) in *.
  destruct (resolved_entry (root m) (pwd m) a Hcwd Ha)
    as (Hja & Hrs & Hsrc & _).
  { fold src. rewrite Hfile. simpl; tauto. }
  destruct (resolved_entry (root m) (pwd m) b Hcwd Hb)
    as (Hjb & Hrt & Htgt & _).
  { by apply can_hold_not_link. }
  fold src in Hja, Hrs, Hsrc. fold tgt in Hjb, Hrt, Htgt.
  assert (tgt ≠ src) as Hne.
  { unfold tgt, src. intros [_ ->]%app_inj_tail. done. }
  assert (stat (root m) src = inr (File i data)) as Hstat
    by by rewrite stat_resolved.
  split.
  { eapply (cat_file _ _ src i data); [by rewrite Hja|done..]. }
  destruct (copy_to_resolved m src tgt i data Hrs Hfile Hrt Hne Hhold)
    as (t' & j & Hrun & Hnew & Hrt').
  exists (set_root t' m). split.
  - change [a; b] with (cp_args false a b).
    unfold cp. rewrite strip_r_cp_args by done.
    unfold bind at 1. unfold gets at 1. rewrite Hja, Hjb.
    rewrite (bind_ok _ _ _ _ _ (resolve_ok _ _ _ Hsrc)).
    rewrite (bind_ok _ _ _ _ _ (resolve_ok _ _ _ Htgt)).
    rewrite (bind_ok _ _ _ _ _ (exists_ok _ _ _ Hstat)). cbn [negb].
    rewrite (bind_ok _ _ _ _ _ (is_dir_file _ _ _ _ Hstat)). cbn [negb andb].
    rewrite (bind_ok _ _ _ _ _ (is_dir_file _ _ _ _ Hstat)).
    unfold shutil_copy.
    unfold bind at 1, is_dir at 1, bind at 1, gets at 1, ret at 1.
    rewrite stat_resolved by done.
    unfold can_hold in Hhold.
    destruct (walk (root m) tgt) as [|[]]; try done; apply Hrun.
  - eapply (cat_file _ _ tgt j data); cbn [root pwd set_root].
    + rewrite Hjb. by apply realpath_fixed.
    + by rewrite stat_resolved.
    + done.
Qed.

(** ** The whole run *)

Lemma main_turn_frame m :
  trace m `prefix_of` trace (snd (main_turn m))
  ∧ stdin (snd (main_turn m)) `suffix_of` stdin m.
Proof.
  destruct (stdin m) as [|line rest] eqn:Hin.
  - rewrite (main_turn_eof m Hin). cbn [snd trace stdin emit].
    split; [by apply prefix_app_r|by rewrite Hin].
  - rewrite (main_turn_line m line rest Hin).
    destruct (String.eqb (lower (strip line)) "exit"); cbn [snd].
    + split; [by apply prefix_app_r|]. cbn [stdin set_stdin].
      by apply suffix_cons_r.
    + split.
      * etrans; [|apply execute_command_grows]. by apply prefix_app_r.
      * etrans; [apply execute_command_consumes|].
        cbn [stdin set_stdin prompted]. by apply suffix_cons_r.
Qed.

(** X28: over a whole run of the loop nothing of the output is taken
    back or rewritten, and what is left of standard input is an end of
    what was there. *)
Theorem main_frame m o m' :
  main m = Some (o, m') →
  trace m `prefix_of` trace m' ∧ stdin m' `suffix_of` stdin m.
Proof.
  unfold main. generalize (S (List.length (stdin m))) as n.
  intros n. revert m. induction n as [|n IH]; intros m; [done|].
  rewrite main_loop_S. pose proof (main_turn_frame m) as [Ht Hs].
  destruct (main_turn m) as [[[|]|e] m1]; cbn [snd] in *.
  - intros H. destruct (IH m1 H) as [Ht' Hs']. split; by etrans.
  - by intros [= _ <-].
  - by intros [= _ <-].
Qed.

End Further.

(** ** The theorems at work on [demo] *)

(** [ls nonexistent]: the handler raises, the dispatcher reports. *)
Lemma execute_command_swallows_witness :
  execute_command ["ls"; "nonexistent"] demo
  = (Ok tt,
     emit [Log "ls nonexistent"; Out_line "No such file or directory";
           Log "ERROR: No such file or directory"] demo).
Proof.
  rewrite (execute_command_swallows "ls" ["nonexistent"] ls demo
             (Exn FileNotFoundError "No such file or directory")
             (emit [Log "ls nonexistent"] demo)).
  - reflexivity.
  - reflexivity.
  - reflexivity.
Defined.

Lemma execute_command_unknown_witness :
  execute_command ["aboba"] demo
  = (Ok tt, emit [Log "aboba"; Out_line "Unknown command";
                  Log "ERROR: Unknown command"] demo).
Proof.
  apply (execute_command_unknown "aboba" [] demo).
  simpl. rewrite !not_elem_of_cons.
  repeat split; try discriminate. apply not_elem_of_nil.
Defined.

(** [rm ..] from [/w] is [rm /]. *)
Lemma rm_guard_witness :
  ∃ msg, rm [".."] demo = (Raise (Exn PermissionError msg), demo).
Proof.
  apply (proj2 (rm_guard demo) false ".." []).
  - intros _. discriminate.
  - reflexivity.
  - left. reflexivity.
Defined.

Lemma filename_dir1 : filename "dir1".
Proof. repeat split; discriminate. Qed.

Lemma cd_there_and_back_witness :
  cd ["dir1"] demo = (Ok tt, set_pwd ["w"; "dir1"] demo)
  ∧ cd [".."] (set_pwd ["w"; "dir1"] demo) = (Ok tt, demo).
Proof.
  apply (cd_there_and_back demo "dir1" dir_inode 4096 []).
  - reflexivity.
  - exact filename_dir1.
  - discriminate.
  - reflexivity.
Defined.

(** C5 as stated fails: [~] names a subdirectory of [/w], a directory
    proper, and [/w] is in resolved form; [cd ~] goes home all the same,
    and [cd ..] from there ends in [/home]. *)
Lemma cd_tilde_does_not_come_back :
  realpath (root demo) (pwd demo) = (pwd demo, true)
  ∧ filename "~"
  ∧ walk (root demo) (pwd demo ++ ["~"]) = inr (Dir dir_inode 4096 [])
  ∧ cd ["~"] demo = (Ok tt, set_pwd ["home"; "u"] demo)
  ∧ cd [".."] (set_pwd ["home"; "u"] demo) = (Ok tt, set_pwd ["home"] demo)
  ∧ pwd (set_pwd ["home"] demo) ≠ pwd demo.
Proof.
  split; [reflexivity|]. split; [repeat split; discriminate|].
  split; [reflexivity|]. split; [reflexivity|]. split; [reflexivity|].
  discriminate.
Qed.

Lemma pwd_changed_by_cd_only_witness :
  cd ["nonexistent"] demo
  = (Raise (Exn FileNotFoundError "No such file or directory"), demo)
  ∧ pwd demo = ["w"].
Proof.
  split; [reflexivity|].
  destruct (pwd_changed_by_cd_only ["nonexistent"] demo)
    as (_ & _ & _ & _ & _ & Hcd).
  destruct (Hcd (Exn FileNotFoundError "No such file or directory") demo
              eq_refl) as [_ Hpwd].
  exact Hpwd.
Defined.

Lemma ls_prints_sorted_names_witness :
  ∃ names,
    ls [] demo = (Ok tt, emit (map Out_line names) demo)
    ∧ names ≡ₚ map fst demo_entries
    ∧ StronglySorted name_le names.
Proof.
  apply (ls_prints_sorted_names [] demo ["w"] dir_inode 4096 demo_entries).
  - apply not_elem_of_nil.
  - reflexivity.
  - reflexivity.
Defined.

(** The listing itself. *)
Example ls_demo :
  ls [] demo
  = (Ok tt, emit [Out_line "dir1"; Out_line "file1.txt"; Out_line "file2.txt";
                  Out_line "~"] demo).
Proof. reflexivity. Qed.

Lemma rm_recursive_confirm_witness :
  rm ["-r"; "dir1"] demo
  = (Ok tt, set_root (put demo_tree ["w"; "dir1"] None)
              (asked ["w"; "dir1"] [] demo))
  ∧ (∃ e, walk (put demo_tree ["w"; "dir1"] None) ["w"; "dir1"] = inl e)
  ∧ ∀ q, ¬ ["w"; "dir1"] `prefix_of` q →
         same_kind (walk demo_tree q)
           (walk (put demo_tree ["w"; "dir1"] None) q).
Proof.
  apply (rm_recursive_confirm demo "dir1" ["w"; "dir1"] [] dir_inode 4096 []
           "Y" []).
  - reflexivity.
  - discriminate.
  - reflexivity.
  - discriminate.
  - reflexivity.
  - reflexivity.
Defined.



Lemma ls_any_arguments_witness :
  exn_cls (Exn FileNotFoundError "No such file or directory") ≠ ValueError.
Proof.
  apply (proj2 (proj2 (proj2
           (ls_any_arguments ["a"; "-l"; "nonexistent"] demo)))
           ltac:(repeat constructor) (λ _, eq_refl)
           (Exn FileNotFoundError "No such file or directory") demo).
  reflexivity.
Defined.

(** Why C5 asks for a working directory in resolved form: once [/a] has
    become a link to [/x], the working directory [/a/b] is stale, and
    [cd d] followed by [cd ..] ends in [/x/b]. *)
Example cd_from_stale_pwd :
  let t := Dir dir_inode 4096
             [("a", Symlink "x");
              ("x", Dir dir_inode 4096
                 [("b", Dir dir_inode 4096 [("d", Dir dir_inode 4096 [])])])] in
  let m := Machine ["a"; "b"] t ["home"; "u"] 1000 1000 0 [] [] in
  cd ["d"] m = (Ok tt, set_pwd ["x"; "b"; "d"] m)
  ∧ cd [".."] (set_pwd ["x"; "b"; "d"] m) = (Ok tt, set_pwd ["x"; "b"] m).
Proof. split; reflexivity. Qed.

(** Why C9 asks for a destination other than the source. *)
Example cp_onto_itself :
  cp ["file1.txt"; "file1.txt"] demo
  = (Raise (Exn SameFileError
       "PosixPath('/w/file1.txt') and PosixPath('/w/file1.txt') are the same file"),
     demo).
Proof. reflexivity. Qed.

(** The same through the directory that holds the file: the destination
    is then a [str]. *)
Example cp_into_own_directory :
  cp ["file1.txt"; "."] demo
  = (Raise (Exn SameFileError
       "PosixPath('/w/file1.txt') and '/w/file1.txt' are the same file"),
     demo).
Proof. reflexivity. Qed.

(** [cp] of a file into a directory. *)
Example cp_into_directory :
  ∃ t' j,
    cp ["file1.txt"; "dir1"] demo = (Ok tt, set_root t' demo)
    ∧ walk t' ["w"; "dir1"; "file1.txt"] = inr (File j "aboba").
Proof.
  exists (root (snd (cp ["file1.txt"; "dir1"] demo))),
    (Inode 420 1000 1000 1700000600).
  split; reflexivity.
Qed.


(** ** The further properties at work *)

Lemma parse_command_padding_witness :
  parse_command ("  " +:+ "ls -l" +:+ " ") = parse_command "ls -l"
  ∧ parse_command "ls -l" = split_ws "ls -l".
Proof. apply (parse_command_padding "  " "ls -l" " "); reflexivity. Defined.

Lemma parse_command_tokens_witness :
  parse_command "  " = [] ∧ blank "  " = true.
Proof.
  split.
  - apply (proj1 (proj2 (parse_command_tokens "  "))). reflexivity.
  - apply (proj2 (proj2 (parse_command_tokens "  "))); reflexivity.
Defined.

Lemma parse_command_join_witness :
  parse_command (join " " ["cp"; "-r"; "a"; "b"]) = ["cp"; "-r"; "a"; "b"].
Proof.
  apply (parse_command_join ["cp"; "-r"; "a"; "b"]).
  - repeat constructor; discriminate.
  - repeat constructor.
Defined.

Lemma main_stops_witness :
  main (set_stdin [" Exit "; "ls"] demo)
  = Some (Ok tt, prompted ["ls"] (set_stdin [" Exit "; "ls"] demo)).
Proof.
  apply (proj2 (main_stops (set_stdin [" Exit "; "ls"] demo)) " Exit " ["ls"]).
  - reflexivity.
  - reflexivity.
Defined.

Lemma main_next_witness :
  main (set_stdin ["ls"; "exit"] demo)
  = main (snd (execute_command (parse_command "ls")
                 (prompted ["exit"] (set_stdin ["ls"; "exit"] demo)))).
Proof.
  apply (main_next (set_stdin ["ls"; "exit"] demo) "ls" ["exit"]).
  - reflexivity.
  - discriminate.
Defined.

Lemma main_blank_line_witness :
  main (set_stdin ["  "; "exit"] demo)
  = main (prompted ["exit"] (set_stdin ["  "; "exit"] demo)).
Proof.
  apply (main_blank_line (set_stdin ["  "; "exit"] demo) "  " ["exit"]).
  - reflexivity.
  - reflexivity.
Defined.

Lemma missing_target_read_witness :
  cat ["nonexistent"] demo = (Raise not_found, demo).
Proof.
  apply (proj2 (proj2 (missing_target_read demo ["w"; "nonexistent"] ENOENT
                         eq_refl eq_refl)) "nonexistent").
  - reflexivity.
  - reflexivity.
Defined.

Lemma missing_target_change_witness :
  mv ["nonexistent"; "dir1"] demo = (Raise not_found, demo).
Proof.
  apply (proj1 (proj2 (missing_target_change demo ["w"; "nonexistent"] ENOENT
                         eq_refl eq_refl)) "nonexistent" "dir1" ["w"; "dir1"]).
  - reflexivity.
  - reflexivity.
  - reflexivity.
  - reflexivity.
Defined.

Lemma not_a_directory_target_witness :
  cd ["file1.txt"] demo = (Raise not_a_directory, demo).
Proof.
  apply (proj2 (not_a_directory_target demo ["w"; "file1.txt"] file_inode
                  "aboba" eq_refl) "file1.txt").
  reflexivity.
Defined.

Lemma is_a_directory_target_witness :
  rm ["dir1"] demo
  = (Raise (Exn IsADirectoryError "omit -r for directories"), demo).
Proof.
  apply (proj2 (proj2 (is_a_directory_target demo ["w"; "dir1"] dir_inode
                         4096 [] eq_refl)) "dir1" []).
  - discriminate.
  - reflexivity.
  - discriminate.
  - reflexivity.
  - discriminate.
Defined.

Lemma one_argument_or_value_error_witness :
  cd ["a"; "b"] demo
  = (Raise (Exn ValueError "cd takes exactly one argument"), demo)
  ∧ cat ["a"; "b"] demo
    = (Raise (Exn ValueError "cat takes exactly one argument"), demo).
Proof.
  apply (proj1 (one_argument_or_value_error ["a"; "b"] demo)).
  discriminate.
Defined.

Lemma two_arguments_or_value_error_witness :
  mv ["a"] demo
  = (Raise (Exn ValueError "mv requires source and destination"), demo).
Proof.
  apply (proj2 (two_arguments_or_value_error ["a"] demo)).
  discriminate.
Defined.

Lemma cat_prints_content_witness :
  cat ["file1.txt"] demo = (Ok tt, emit [Out_text "aboba"] demo)
  ∧ printed (trace (emit [Out_text "aboba"] demo))
    = printed (trace demo) +:+ "aboba"
  ∧ (has_char "013" "aboba" = false → universal_newlines "aboba" = "aboba").
Proof.
  apply (proj1 (cat_prints_content demo "file1.txt" ["w"; "file1.txt"]
                  file_inode "aboba" eq_refl eq_refl eq_refl) "aboba").
  reflexivity.
Defined.

Lemma cd_home_witness :
  cd ["~"] (set_pwd ["w"; "dir1"] demo) = (Ok tt, set_pwd ["home"; "u"] demo).
Proof.
  apply (cd_home demo ["home"; "u"] dir_inode 4096 []).
  - reflexivity.
  - reflexivity.
Defined.

Lemma rm_file_witness :
  ∃ t', rm ["file1.txt"] demo = (Ok tt, set_root t' demo)
        ∧ (∃ e, walk t' ["w"; "file1.txt"] = inl e)
        ∧ ∀ q, ¬ ["w"; "file1.txt"] `prefix_of` q →
               same_entry (walk demo_tree q) (walk t' q).
Proof.
  apply (rm_file demo false "file1.txt" ["w"; "file1.txt"] [] file_inode
           "aboba").
  - intros _. discriminate.
  - reflexivity.
  - reflexivity.
  - discriminate.
  - reflexivity.
  - discriminate.
  - reflexivity.
Defined.

Lemma rm_raise_keeps_tree_witness :
  root (snd (rm ["dir1"] demo)) = root demo.
Proof.
  apply (rm_raise_keeps_tree ["dir1"] demo
           (Exn IsADirectoryError "omit -r for directories")).
  - discriminate.
  - reflexivity.
Defined.

Lemma rm_keeps_directories_witness :
  ∃ i' sz' es', walk (root (snd (rm ["file1.txt"] demo))) ["w"]
                = inr (Dir i' sz' es').
Proof.
  apply (rm_keeps_directories ["file1.txt"] demo ["w"] dir_inode 4096
           demo_entries).
  - discriminate.
  - reflexivity.
Defined.


(** The long listing itself. *)
Example ls_long_demo :
  ls ["-l"] demo
  = (Ok tt,
     emit [Out_line "drwxr-xr-x 1000 1000     4096 Nov 14 22:13 dir1";
           Out_line "-rw-r--r-- 1000 1000        5 Nov 14 22:13 file1.txt";
           Out_line "-rw-r--r-- 1000 1000       11 Nov 14 22:13 file2.txt";
           Out_line "drwxr-xr-x 1000 1000     4096 Nov 14 22:13 ~"] demo).
Proof. reflexivity. Qed.

Lemma ls_long_dangling_witness :
  (∃ e m', ls ["-l"] dangling = (Raise e, m'))
  ∧ ∃ m', ls (filter (λ a, a ≠ "-l") ["-l"]) dangling = (Ok tt, m').
Proof.
  apply (ls_long_dangling ["-l"] dangling ["w"] dir_inode 4096
           [("file1.txt", File file_inode "aboba"); ("gone", Symlink "nowhere")]).
  - apply list_elem_of_here.
  - reflexivity.
  - reflexivity.
  - apply Exists_cons_tl, Exists_cons_hd. exists ENOENT. reflexivity.
Defined.

(** What is printed before [ls -l] fails. *)
Example ls_long_dangling_demo :
  ls ["-l"] dangling
  = (Raise (Exn FileNotFoundError
       "[Errno 2] No such file or directory: '/w/gone'"),
     emit [Out_line "-rw-r--r-- 1000 1000        5 Nov 14 22:13 file1.txt"]
       dangling).
Proof. reflexivity. Qed.

Lemma resolved_demo : resolved (root demo) (pwd demo).
Proof. by apply (realpath_resolved demo_tree ["w"]). Qed.

Lemma filename_file1 : filename "file1.txt".
Proof. repeat split; discriminate. Qed.

Lemma rm_then_missing_witness :
  ∃ m', rm ["file1.txt"] demo = (Ok tt, m')
        ∧ cat ["file1.txt"] m' = (Raise not_found, m')
        ∧ rm ["file1.txt"] m' = (Raise not_found, m').
Proof.
  apply (rm_then_missing demo "file1.txt" file_inode "aboba").
  - exact resolved_demo.
  - exact filename_file1.
  - discriminate.
  - reflexivity.
Defined.

Lemma cp_then_cat_witness :
  cat ["file1.txt"] demo = (Ok tt, emit [Out_text "aboba"] demo)
  ∧ ∃ m', cp ["file1.txt"; "copy.txt"] demo = (Ok tt, m')
          ∧ cat ["copy.txt"] m' = (Ok tt, emit [Out_text "aboba"] m').
Proof.
  apply (cp_then_cat demo "file1.txt" "copy.txt" file_inode "aboba" "aboba").
  - exact resolved_demo.
  - exact filename_file1.
  - repeat split; discriminate.
  - discriminate.
  - discriminate.
  - reflexivity.
  - reflexivity.
  - reflexivity.
  - exists dir_inode, 4096%N, demo_entries. reflexivity.
  - reflexivity.
Defined.

Lemma main_frame_witness :
  trace (set_stdin ["exit"; "ls"] demo)
    `prefix_of` trace (prompted ["ls"] (set_stdin ["exit"; "ls"] demo))
  ∧ stdin (prompted ["ls"] (set_stdin ["exit"; "ls"] demo))
      `suffix_of` stdin (set_stdin ["exit"; "ls"] demo).
Proof.
  apply (main_frame (set_stdin ["exit"; "ls"] demo) (Ok tt)
           (prompted ["ls"] (set_stdin ["exit"; "ls"] demo))).
  reflexivity.
Defined.

Lemma cd_sets_resolved_witness :
  set_pwd ["w"; "dir1"] demo = set_pwd ["w"; "dir1"] demo
  ∧ realpath (root (set_pwd ["w"; "dir1"] demo))
      (pwd (set_pwd ["w"; "dir1"] demo))
    = (pwd (set_pwd ["w"; "dir1"] demo), true)
  ∧ ∃ i sz es,
      stat (root (set_pwd ["w"; "dir1"] demo))
        (pwd (set_pwd ["w"; "dir1"] demo))
      = inr (Dir i sz es).
Proof.
  apply (cd_sets_resolved demo "dir1" ["w"; "dir1"]
           (set_pwd ["w"; "dir1"] demo)).
  - reflexivity.
  - reflexivity.
Defined.

(** Why X29 asks for a resolution without a loop: [l1] is a link to
    itself, [sym] a link to a directory; [resolve] gives up at [l1],
    normalises what is left, and [cd] makes a link the working
    directory. *)
Example cd_past_a_loop :
  cd ["l1/../sym"] looping = (Ok tt, set_pwd ["w"; "sym"] looping)
  ∧ walk (root looping) ["w"; "sym"] = inr (Symlink "d")
  ∧ cd ["l1/x"] looping
    = (Raise (Exn RuntimeError "Symlink loop from '/w/l1/x'"), looping).
Proof. repeat split. Qed.

(** The line ends of a text, and bytes that are none. *)
Example cat_texts :
  cat ["lines.txt"] texts
  = (Ok tt,
     emit [Out_text ("a" +:+ String "010" ("b" +:+ String "010"
                       ("c" +:+ String "010" EmptyString)))] texts)
  ∧ cat ["raw.bin"] texts
    = (Raise (Exn UnicodeDecodeError
         "'utf-8' codec can't decode byte 0xff in position 0: invalid start byte"),
       texts).
Proof. split; reflexivity. Qed.

(** [mv] of a file into a directory and onto a file, of a directory
    into itself and to a place whose directories are yet to be made. *)
Example mv_demo :
  let m1 := snd (mv ["file1.txt"; "dir1"] demo) in
  let m2 := snd (mv ["file2.txt"; "dir1/file1.txt"] m1) in
  let m3 := snd (mv ["dir1"; "new/x"] m2) in
  (fst (mv ["file1.txt"; "dir1"] demo),
   walk (root m1) ["w"; "dir1"; "file1.txt"],
   walk (root m1) ["w"; "file1.txt"])
  = (Ok tt, inr (File file_inode "aboba"), inl ENOENT)
  ∧ (fst (mv ["file2.txt"; "dir1/file1.txt"] m1),
     walk (root m2) ["w"; "dir1"; "file1.txt"])
    = (Ok tt, inr (File file_inode "aboba aboba"))
  ∧ mv ["dir1"; "dir1/x"] m2
    = (Raise (Exn ShutilError
         "Cannot move a directory '/w/dir1' into itself '/w/dir1/x'."), m2)
  ∧ mv ["dir1"; "."] m2
    = (Raise (Exn ShutilError "Destination path '/w/dir1' already exists"),
       m2)
  ∧ (fst (mv ["dir1"; "new/x"] m2),
     walk (root m3) ["w"; "new"; "x"; "file1.txt"],
     walk (root m3) ["w"; "dir1"])
    = (Ok tt, inr (File file_inode "aboba aboba"), inl ENOENT).
Proof. vm_compute. repeat split. Qed.

(** [cp -r] where something is, and where directories are yet to be
    made. *)
Example cp_r_demo :
  cp ["-r"; "dir1"; "~"] demo
  = (Raise (Exn FileExistsError "[Errno 17] File exists: '/w/~'"), demo)
  ∧ cp ["-r"; "dir1"; "file1.txt/c"] demo
    = (Raise (Exn NotADirectoryError
         "[Errno 20] Not a directory: '/w/file1.txt/c'"), demo)
  ∧ (fst (cp ["-r"; "dir1"; "a/b"] demo),
     walk (root (snd (cp ["-r"; "dir1"; "a/b"] demo))) ["w"; "a"; "b"])
    = (Ok tt, inr (Dir dir_inode 4096 [])).
Proof. vm_compute. repeat split. Qed.

(** What [repr] does to a name. *)
Example repr_demo :
  repr "it's" = String "034" ("it's" +:+ String "034" EmptyString)
  ∧ repr ("a" +:+ String "009" ("b" +:+ String "001" (String "127"
            (String "010" EmptyString))))
    = "'a\tb\x01\x7f\n'"
  ∧ repr "a\b" = "'a\\b'".
Proof. vm_compute. repeat split. Qed.

(** A session: [cp], [cat] on the copy, a line the shell does not know,
    [exit]; the line after [exit] is not read. *)
Example main_demo :
  option_map
    (λ r : outcome unit * machine,
       (fst r, printed (trace (snd r)), logged (trace (snd r)), stdin (snd r)))
    (main (set_stdin ["cp file1.txt copy.txt"; " cat copy.txt"; "aboba";
                      "EXIT"; "ls"] demo))
  = Some (Ok tt,
          "/w$ /w$ aboba/w$ Unknown command" +:+ String "010" "/w$ ",
          ["cp file1.txt copy.txt"; "cat copy.txt"; "aboba";
           "ERROR: Unknown command"],
          ["ls"]).
Proof. vm_compute. reflexivity. Qed.
